(** * Differentiable circuit evaluation for the PennyLane tutorial notebook

    The notebook [Lecture14Notebook/PennyLane tutorial.ipynb] declares a few
    variational circuits and classical post-processing functions and hands
    them to a simulator, a differentiator and a gradient-descent optimizer.
    This development embeds

    - the engine the notebook relies on (state-vector simulator, circuit
      representation with [bind], parameter-shift differentiator,
      gradient-descent step), each definition following the words of the
      specification, and
    - the notebook's own definitions ([circuit], [cost], [generator],
      [discriminator], [prob_real_true], ...), following the cells.

    The engine is written once over an abstract scalar arithmetic; it is
    read in exact real arithmetic for the mathematical properties and in
    IEEE binary64 to compare with the outputs recorded in the notebook. *)

From Stdlib Require Import PrimFloat.
From Stdlib Require Import Reals Lra Lia List Arith Bool.
Import ListNotations.

Set Implicit Arguments.

(** ** Errors and results *)

(** Modelled from the spec: the four error kinds of section 7.
    [IndexError] is what Python raises when the notebook's own code indexes
    a weight array out of range. *)
Inductive Error : Set :=
| ArityMismatch
| WireOutOfRange
| InvalidObservable
| UnsupportedGate
| IndexError.

Inductive result (A : Type) : Type :=
| Ok (a : A)
| Err (e : Error).
Arguments Ok {A} a.
Arguments Err {A} e.

Definition rbind {A B : Type} (r : result A) (k : A -> result B) : result B :=
  match r with
  | Ok a => k a
  | Err e => Err e
  end.

Notation "x <- r ;; k" := (rbind r (fun x => k))
  (at level 61, r at next level, right associativity).

(** ** Scalar arithmetic *)

(** What the simulator needs from its scalars. *)
Record Scalars (K : Type) : Type := {
  kzero : K;
  kone : K;
  kadd : K -> K -> K;
  ksub : K -> K -> K;
  kmul : K -> K -> K;
  kopp : K -> K;
  khalf : K -> K;
  kcos : K -> K;
  ksin : K -> K;
  krsqrt2 : K;
  khalfpi : K
}.

(** ** Gates and observables *)

(** Modelled from the spec: the gate kinds of the data model of section 3
    (the gates themselves are PennyLane's, [pennylane.ops], not in the
    repository); [P] is the type of a gate parameter: a slot of the
    enclosing circuit before [bind], a scalar after it. *)
Module ops.
Inductive Gate (P : Type) : Type :=
| Hadamard (wires : nat)
| PauliX (wires : nat)
| PauliY (wires : nat)
| PauliZ (wires : nat)
| RX (theta : P) (wires : nat)
| RY (theta : P) (wires : nat)
| RZ (theta : P) (wires : nat)
| PhaseShift (phi : P) (wires : nat)
| Rot (phi theta omega : P) (wires : nat)
| CNOT (control target : nat).
Arguments Hadamard {P} wires.
Arguments PauliX {P} wires.
Arguments PauliY {P} wires.
Arguments PauliZ {P} wires.
Arguments CNOT {P} control target.
End ops.
Import ops.

(** Modelled from the spec: the single-wire observables of section 3,
    [pennylane.expval] in the notebook; the general Hermitian matrix is
    left out, the notebook measures Pauli-Z only. *)
Module expval.
Inductive Observable : Set :=
| PauliX
| PauliY
| PauliZ
| Hadamard.
End expval.

(** The free parameters a gate carries, in order. *)
Definition gate_params {P : Type} (g : Gate P) : list P :=
  match g with
  | RX t _ | RY t _ | RZ t _ | PhaseShift t _ => [t]
  | Rot p t o _ => [p; t; o]
  | _ => []
  end.

(** Replaces the parameters of a gate through [f] (position, old value). *)
Definition gate_map {P Q : Type} (f : nat -> P -> Q) (g : Gate P) : Gate Q :=
  match g with
  | ops.Hadamard w => ops.Hadamard w
  | ops.PauliX w => ops.PauliX w
  | ops.PauliY w => ops.PauliY w
  | ops.PauliZ w => ops.PauliZ w
  | RX t w => RX (f 0%nat t) w
  | RY t w => RY (f 0%nat t) w
  | RZ t w => RZ (f 0%nat t) w
  | PhaseShift t w => PhaseShift (f 0%nat t) w
  | Rot p t o w => Rot (f 0%nat p) (f 1%nat t) (f 2%nat o) w
  | CNOT c t => CNOT c t
  end.

(** Every wire index of the gate is below [n]; the two wires of a
    controlled-NOT are distinct. *)
Definition gate_wires_ok {P : Type} (n : nat) (g : Gate P) : bool :=
  match g with
  | ops.Hadamard w | ops.PauliX w | ops.PauliY w | ops.PauliZ w
  | RX _ w | RY _ w | RZ _ w | PhaseShift _ w | Rot _ _ _ w => w <? n
  | CNOT c t => (c <? n) && (t <? n) && negb (c =? t)
  end.

(** ** Circuit representation *)

(** Modelled from the spec: the circuit value of section 3 (an ordered gate
    list whose parameters refer to positional inputs, one observable on one
    wire); the notebook only has the decorated Python functions. *)
Record Circuit : Type := {
  num_wires : nat;
  num_params : nat;
  gates : list (Gate nat);
  observable : expval.Observable;
  obs_wire : nat
}.

(** ** The engine, over any scalar arithmetic *)

Section Engine.

Context {K : Type} (A : Scalars K).

Local Notation "'k0'" := (kzero A).
Local Notation "'k1'" := (kone A).
Local Infix "+" := (kadd A).
Local Infix "-" := (ksub A).
Local Infix "*" := (kmul A).
Local Notation "- x" := (kopp A x).

(** *** Complex amplitudes *)

Definition Cx : Type := (K * K)%type.

Definition C0 : Cx := (k0, k0).
Definition C1 : Cx := (k1, k0).
Definition Cadd (x y : Cx) : Cx := (fst x + fst y, snd x + snd y).
Definition Cmul (x y : Cx) : Cx :=
  (fst x * fst y - snd x * snd y, fst x * snd y + snd x * fst y).
Definition Cabs2 (x : Cx) : K := fst x * fst x + snd x * snd x.
(** Real part of [conj x * y]. *)
Definition Cre_dot (x y : Cx) : K := fst x * fst y + snd x * snd y.

(** *** Register state *)

(** The 2^n amplitudes of an n-wire register, split on wire 0 first: the
    left half holds the basis states whose bit for wire 0 is 0. *)
Fixpoint qstate (n : nat) : Type :=
  match n with
  | O => Cx
  | S k => (qstate k * qstate k)%type
  end.

(** The amplitudes in index order. *)
Fixpoint amplitudes (n : nat) : qstate n -> list Cx :=
  match n return qstate n -> list Cx with
  | O => fun psi => [psi]
  | S k => fun psi => amplitudes k (fst psi) ++ amplitudes k (snd psi)
  end.

Fixpoint qzero (n : nat) : qstate n :=
  match n return qstate n with
  | O => C0
  | S k => (qzero k, qzero k)
  end.

(** Modelled from the spec: the all-zero basis state, amplitude 1 at index
    0 and 0 elsewhere. *)
Fixpoint basis0 (n : nat) : qstate n :=
  match n return qstate n with
  | O => C1
  | S k => (basis0 k, qzero k)
  end.

Fixpoint norm2 (n : nat) : qstate n -> K :=
  match n return qstate n -> K with
  | O => fun psi => Cabs2 psi
  | S k => fun psi => norm2 k (fst psi) + norm2 k (snd psi)
  end.

(** *** Gate matrices *)

Record M2 : Type := { m00 : Cx; m01 : Cx; m10 : Cx; m11 : Cx }.

Definition mat_H : M2 :=
  {| m00 := (krsqrt2 A, k0); m01 := (krsqrt2 A, k0);
     m10 := (krsqrt2 A, k0); m11 := (- krsqrt2 A, k0) |}.
Definition mat_X : M2 := {| m00 := C0; m01 := C1; m10 := C1; m11 := C0 |}.
Definition mat_Y : M2 :=
  {| m00 := C0; m01 := (k0, - k1); m10 := (k0, k1); m11 := C0 |}.
Definition mat_Z : M2 :=
  {| m00 := C1; m01 := C0; m10 := C0; m11 := (- k1, k0) |}.

(** Modelled from the spec: RX(theta) = cos(theta/2) I - i sin(theta/2) X;
    RY and RZ are the same closed form about the Y and Z axes. *)
Definition mat_RX (theta : K) : M2 :=
  let c := kcos A (khalf A theta) in
  let s := ksin A (khalf A theta) in
  {| m00 := (c, k0); m01 := (k0, - s); m10 := (k0, - s); m11 := (c, k0) |}.
Definition mat_RY (theta : K) : M2 :=
  let c := kcos A (khalf A theta) in
  let s := ksin A (khalf A theta) in
  {| m00 := (c, k0); m01 := (- s, k0); m10 := (s, k0); m11 := (c, k0) |}.
Definition mat_RZ (theta : K) : M2 :=
  let c := kcos A (khalf A theta) in
  let s := ksin A (khalf A theta) in
  {| m00 := (c, - s); m01 := C0; m10 := C0; m11 := (c, s) |}.
Definition mat_PhaseShift (phi : K) : M2 :=
  {| m00 := C1; m01 := C0; m10 := C0; m11 := (kcos A phi, ksin A phi) |}.

(** *** Gate application *)

Definition mat_act (m : M2) (x y : Cx) : Cx * Cx :=
  (Cadd (Cmul (m00 m) x) (Cmul (m01 m) y),
   Cadd (Cmul (m10 m) x) (Cmul (m11 m) y)).

(** Combines two half registers amplitude by amplitude. *)
Fixpoint zip2 (n : nat) (f : Cx -> Cx -> Cx * Cx)
  : qstate n -> qstate n -> qstate n * qstate n :=
  match n return qstate n -> qstate n -> qstate n * qstate n with
  | O => f
  | S k => fun u v =>
      let p0 := zip2 k f (fst u) (fst v) in
      let p1 := zip2 k f (snd u) (snd v) in
      ((fst p0, fst p1), (snd p0, snd p1))
  end.

(** Modelled from the spec: a gate is applied as a unitary matrix
    multiplication against the full state vector; here the 2x2 matrix [m]
    acts on wire [w], that is on every pair of amplitudes whose indices
    differ in the bit of [w] only.  A wire outside the register leaves the
    state alone; [bind] rejects such circuits. *)
Fixpoint apply1 (n : nat) (m : M2) (w : nat) : qstate n -> qstate n :=
  match n return qstate n -> qstate n with
  | O => fun psi => psi
  | S k => fun psi =>
      match w with
      | O => zip2 k (mat_act m) (fst psi) (snd psi)
      | S w' => (apply1 k m w' (fst psi), apply1 k m w' (snd psi))
      end
  end.

(** Swaps the amplitude pairs that differ in the bit of wire [t]. *)
Fixpoint swap_bit (n : nat) (t : nat) : qstate n -> qstate n :=
  match n return qstate n -> qstate n with
  | O => fun psi => psi
  | S k => fun psi =>
      match t with
      | O => (snd psi, fst psi)
      | S t' => (swap_bit k t' (fst psi), swap_bit k t' (snd psi))
      end
  end.

(** Exchanges the amplitudes of [u] and [v] where the bit of wire [c] is 1. *)
Fixpoint cswap (n : nat) (c : nat)
  : qstate n -> qstate n -> qstate n * qstate n :=
  match n return qstate n -> qstate n -> qstate n * qstate n with
  | O => fun u v => (u, v)
  | S k => fun u v =>
      match c with
      | O => ((fst u, snd v), (fst v, snd u))
      | S c' =>
          let p0 := cswap k c' (fst u) (fst v) in
          let p1 := cswap k c' (snd u) (snd v) in
          ((fst p0, fst p1), (snd p0, snd p1))
      end
  end.

(** Modelled from the spec: controlled-NOT leaves the amplitudes whose
    control bit is 0 unchanged and swaps the target-bit pairs of the
    others. *)
Fixpoint cnot (n : nat) (c t : nat) : qstate n -> qstate n :=
  match n return qstate n -> qstate n with
  | O => fun psi => psi
  | S k => fun psi =>
      match c, t with
      | O, O => psi
      | O, S t' => (fst psi, swap_bit k t' (snd psi))
      | S c', O => cswap k c' (fst psi) (snd psi)
      | S c', S t' => (cnot k c' t' (fst psi), cnot k c' t' (snd psi))
      end
  end.

(** Modelled from the spec: the exhaustive match of the simulator on the
    gate kind.  The three-angle rotation is RZ(omega) RY(theta) RZ(phi),
    the phi rotation applied first. *)
Definition apply_gate (n : nat) (g : Gate K) (psi : qstate n) : qstate n :=
  match g with
  | ops.Hadamard w => apply1 n mat_H w psi
  | ops.PauliX w => apply1 n mat_X w psi
  | ops.PauliY w => apply1 n mat_Y w psi
  | ops.PauliZ w => apply1 n mat_Z w psi
  | RX t w => apply1 n (mat_RX t) w psi
  | RY t w => apply1 n (mat_RY t) w psi
  | RZ t w => apply1 n (mat_RZ t) w psi
  | PhaseShift p w => apply1 n (mat_PhaseShift p) w psi
  | Rot p t o w =>
      apply1 n (mat_RZ o) w (apply1 n (mat_RY t) w (apply1 n (mat_RZ p) w psi))
  | CNOT c t => cnot n c t psi
  end.

(** Applies the gates in sequence, first gate first. *)
Fixpoint run_from (n : nat) (gs : list (Gate K)) (psi : qstate n) : qstate n :=
  match gs with
  | [] => psi
  | g :: gs' => run_from n gs' (apply_gate n g psi)
  end.

(** *** Expectation values *)

(** Modelled from the spec: for Pauli-Z on wire [w], the sum over basis
    states of |amplitude|^2, weighted +1 where bit [w] is 0 and -1 where
    it is 1. *)
Fixpoint expZ (n : nat) (w : nat) : qstate n -> K :=
  match n return qstate n -> K with
  | O => fun _ => k0
  | S k => fun psi =>
      match w with
      | O => norm2 k (fst psi) - norm2 k (snd psi)
      | S w' => expZ k w' (fst psi) + expZ k w' (snd psi)
      end
  end.

(** Real part of the inner product. *)
Fixpoint re_inner (n : nat) : qstate n -> qstate n -> K :=
  match n return qstate n -> qstate n -> K with
  | O => fun u v => Cre_dot u v
  | S k => fun u v => re_inner k (fst u) (fst v) + re_inner k (snd u) (snd v)
  end.

Definition expectation (n : nat) (o : expval.Observable) (w : nat)
    (psi : qstate n) : K :=
  match o with
  | expval.PauliZ => expZ n w psi
  | expval.PauliX => re_inner n psi (apply1 n mat_X w psi)
  | expval.PauliY => re_inner n psi (apply1 n mat_Y w psi)
  | expval.Hadamard => re_inner n psi (apply1 n mat_H w psi)
  end.

(** *** Binding and evaluation *)

Record BoundCircuit : Type := {
  bwires : nat;
  bgates : list (Gate K);
  bobservable : expval.Observable;
  bobs_wire : nat
}.

Definition wires_ok (c : Circuit) : bool :=
  forallb (gate_wires_ok (num_wires c)) (gates c)
  && (obs_wire c <? num_wires c).

(** Modelled from the spec: [bind] checks the number of values, then the
    wire indices, and substitutes the values for the slots. *)
Definition bind (c : Circuit) (values : list K) : result BoundCircuit :=
  if negb (length values =? num_params c) then Err ArityMismatch
  else if negb (wires_ok c) then Err WireOutOfRange
  else Ok {| bwires := num_wires c;
             bgates := map (gate_map (fun _ i => nth i values k0)) (gates c);
             bobservable := observable c;
             bobs_wire := obs_wire c |}.

(** Modelled from the spec: the register is created as the all-zero basis
    state, taken through the gates, and read once. *)
Definition final_state (b : BoundCircuit) : qstate (bwires b) :=
  run_from (bwires b) (bgates b) (basis0 (bwires b)).

Definition measure (b : BoundCircuit) : K :=
  expectation (bwires b) (bobservable b) (bobs_wire b) (final_state b).

(** Modelled from the spec: [evaluate(circuit, parameter_values)]. *)
Definition evaluate (c : Circuit) (values : list K) : result K :=
  b <- bind c values ;; Ok (measure b).

(** *** Execution as a machine *)

(** Modelled from the spec: the simulator applies each gate in sequence.
    A configuration holds the gates still to apply and the register. *)
Record Config (n : nat) : Type := {
  pending : list (Gate K);
  register : qstate n
}.

Inductive exec_step (n : nat) : Config n -> Config n -> Prop :=
| exec_gate : forall g gs psi,
    exec_step {| pending := g :: gs; register := psi |}
              {| pending := gs; register := apply_gate n g psi |}.




(** *** Parameter-shift differentiation *)

(** Modelled from the spec: the scale [a] and the shift [s] of a gate, by
    gate type alone; gates without a parameter have none. *)
Definition shift_rule {P : Type} (g : Gate P) : option (K * K) :=
  match g with
  | RX _ _ | RY _ _ | RZ _ _ | PhaseShift _ _ | Rot _ _ _ _ =>
      Some (khalf A k1, khalfpi A)
  | _ => None
  end.

(** Adds [d] to parameter [j] of the gate. *)
Definition shift_gate (j : nat) (d : K) (g : Gate K) : Gate K :=
  gate_map (fun p x => if p =? j then x + d else x) g.

(** Adds [d] to parameter [j] of gate number [k]. *)
Fixpoint shift_at (k j : nat) (d : K) (gs : list (Gate K)) : list (Gate K) :=
  match gs with
  | [] => []
  | g :: gs' =>
      match k with
      | O => shift_gate j d g :: gs'
      | S k' => g :: shift_at k' j d gs'
      end
  end.

(** The positions of [l], counted from [j], that hold [i]. *)
Fixpoint positions (j : nat) (i : nat) (l : list nat) : list nat :=
  match l with
  | [] => []
  | x :: l' =>
      if x =? i then j :: positions (S j) i l' else positions (S j) i l'
  end.

(** Where slot [i] feeds a gate: (gate number, parameter position), the
    gates counted from [k]. *)
Fixpoint occurrences (k : nat) (i : nat) (gs : list (Gate nat))
  : list (nat * nat) :=
  match gs with
  | [] => []
  | g :: gs' =>
      map (fun j => (k, j)) (positions 0 i (gate_params g))
      ++ occurrences (S k) i gs'
  end.

Definition with_gates (b : BoundCircuit) (gs : list (Gate K)) : BoundCircuit :=
  {| bwires := bwires b; bgates := gs;
     bobservable := bobservable b; bobs_wire := bobs_wire b |}.

(** The contribution of one occurrence: two evaluations, the parameter
    increased and decreased by [s], their difference scaled by [a]. *)
Definition shift_term (b : BoundCircuit) (kj : nat * nat) : K :=
  match nth_error (bgates b) (fst kj) with
  | Some g =>
      match shift_rule g with
      | Some (a, s) =>
          a * (measure (with_gates b (shift_at (fst kj) (snd kj) s (bgates b)))
               - measure (with_gates b (shift_at (fst kj) (snd kj) (- s) (bgates b))))
      | None => k0
      end
  | None => k0
  end.

(** Sum of the contributions; zero for a slot that feeds no gate. *)
Fixpoint shift_sum (b : BoundCircuit) (occ : list (nat * nat)) : K :=
  match occ with
  | [] => k0
  | kj :: occ' => shift_term b kj + shift_sum b occ'
  end.

(** Modelled from the spec: [gradient(circuit, parameter_values,
    with_respect_to)], a mapping from parameter index to partial
    derivative, here an association list in the order requested. *)
Definition gradient (c : Circuit) (values : list K) (with_respect_to : list nat)
  : result (list (nat * K)) :=
  b <- bind c values ;;
  Ok (map (fun i => (i, shift_sum b (occurrences 0 i (gates c))))
          with_respect_to).

Fixpoint lookup (i : nat) (m : list (nat * K)) : option K :=
  match m with
  | [] => None
  | (j, d) :: m' => if j =? i then Some d else lookup i m'
  end.

(** *** Gradient descent *)

(** Modelled from the spec: a differentiable objective, its value and the
    gradient that differentiation computes for it (autograd in the
    library). *)
Record Objective : Type := {
  value : list K -> result K;
  grad : list K -> result (list K)
}.

(** Modelled from the spec: a quantum node as an objective, differentiated
    in all its inputs by the parameter-shift differentiator. *)
Definition qnode (c : Circuit) : Objective :=
  {| value := evaluate c;
     grad := fun x =>
       g <- gradient c x (seq 0 (num_params c)) ;; Ok (map snd g) |}.

Record GradientDescentOptimizer : Type := { stepsize : K }.

Fixpoint apply_grad (eta : K) (g x : list K) : list K :=
  match g, x with
  | gi :: g', xi :: x' => (xi - eta * gi) :: apply_grad eta g' x'
  | _, _ => []
  end.

(** Modelled from the spec: one fixed-learning-rate step,
    [updated = current - learning_rate * gradient]. *)
Definition step (opt : GradientDescentOptimizer) (objective : Objective)
    (x : list K) : result (list K) :=
  g <- grad objective x ;; Ok (apply_grad (stepsize opt) g x).

End Engine.

Arguments Cx K : clear implicits.
Arguments qstate K n : clear implicits.
Arguments M2 K : clear implicits.
Arguments BoundCircuit K : clear implicits.
Arguments Config K n : clear implicits.
Arguments Objective K : clear implicits.
Arguments GradientDescentOptimizer K : clear implicits.

(** ** The two readings of the scalars *)

(** Exact real arithmetic. *)
Definition exact : Scalars R := {|
  kzero := 0%R;
  kone := 1%R;
  kadd := Rplus;
  ksub := Rminus;
  kmul := Rmult;
  kopp := Ropp;
  khalf := fun x => (x / 2)%R;
  kcos := cos;
  ksin := sin;
  krsqrt2 := (/ sqrt 2)%R;
  khalfpi := (PI / 2)%R
|}.

(** IEEE binary64, over the cosine and sine of the platform's libm. *)
Record Libm : Set := { fcos : float -> float; fsin : float -> float }.

Definition double (L : Libm) : Scalars float := {|
  kzero := 0%float;
  kone := 1%float;
  kadd := PrimFloat.add;
  ksub := PrimFloat.sub;
  kmul := PrimFloat.mul;
  kopp := PrimFloat.opp;
  khalf := fun x => PrimFloat.div x 2%float;
  kcos := fcos L;
  ksin := fsin L;
  krsqrt2 := PrimFloat.div 1%float (PrimFloat.sqrt 2%float);
  khalfpi := 0x1.921fb54442d18p+0%float
|}.

(** ** Lists as parameter vectors *)

(** The vector [l] with component [i] replaced by [x]. *)
Fixpoint set_nth {T : Type} (i : nat) (x : T) (l : list T) : list T :=
  match l with
  | [] => []
  | y :: l' =>
      match i with
      | O => x :: l'
      | S i' => y :: set_nth i' x l'
      end
  end.

(** Python's [l[i]] for a non-negative literal [i]. *)
Definition index {T : Type} (l : list T) (i : nat) : result T :=
  match nth_error l i with
  | Some x => Ok x
  | None => Err IndexError
  end.

(** ** The notebook *)

(** [dev = qml.device('default.qubit', wires=2)] *)
Definition dev_wires : nat := 2.

Definition theta1 : nat := 0.
Definition theta2 : nat := 1.

(** [circuit(theta1, theta2)] of cell 6. *)
Definition circuit : Circuit := {|
  num_wires := dev_wires;
  num_params := 2;
  gates := [ops.Hadamard 1; RX theta1 0; RX theta2 1; CNOT 0 1];
  observable := expval.PauliZ;
  obs_wire := 0
|}.

(** ** Reading the engine in exact arithmetic *)

Local Open Scope R_scope.

Ltac exact_arith :=
  cbn [kzero kone kadd ksub kmul kopp khalf kcos ksin krsqrt2 khalfpi exact
       fst snd] in *.

Ltac unfold_cx :=
  unfold mat_act, Cadd, Cmul, Cabs2, Cre_dot, C0, C1 in *; exact_arith.

(** [target = 0.33] and [cost(weights)] of cell 19. *)
Definition target : R := 33 / 100.

Definition cost (weights : list R) : result R :=
  w0 <- index weights 0 ;;
  w1 <- index weights 1 ;;
  expval <- evaluate exact circuit [w0; w1] ;;
  w2 <- index weights 2 ;;
  Ok (Rabs (expval - target) ^ 2 + w2 ^ 2).

(** [eta = 0.1; opt = GradientDescentOptimizer(eta)] of cell 15. *)
Definition eta : R := 1 / 10.
Definition opt : GradientDescentOptimizer R := {| stepsize := eta |}.

(** [gan_dev = qml.device('default.qubit', wires=3)] *)
Definition gan_dev_wires : nat := 3.

(** [real(phi, theta, omega)] of cell 27. *)
Definition real {P : Type} (phi theta omega : P) : list (Gate P) :=
  [Rot phi theta omega 0].

(** [generator(w)] and [discriminator(w)] of cell 29; [w i] is [w[i]]. *)
Definition generator {P : Type} (w : nat -> P) : list (Gate P) :=
  [RX (w 0%nat) 0; RX (w 1%nat) 1;
   RY (w 2%nat) 0; RY (w 3%nat) 1;
   RZ (w 4%nat) 0; RZ (w 5%nat) 1;
   CNOT 0 1;
   RX (w 6%nat) 0; RY (w 7%nat) 0; RZ (w 8%nat) 0].

Definition discriminator {P : Type} (w : nat -> P) : list (Gate P) :=
  [RX (w 0%nat) 0; RX (w 1%nat) 2;
   RY (w 2%nat) 0; RY (w 3%nat) 2;
   RZ (w 4%nat) 0; RZ (w 5%nat) 2;
   CNOT 1 2;
   RX (w 6%nat) 2; RY (w 7%nat) 2; RZ (w 8%nat) 2].

(** [real_disc_circuit(phi, theta, omega, disc_weights)] of cell 31: the
    three angles take slots 0 to 2, the nine discriminator weights slots 3
    to 11. *)
Definition real_disc_circuit : Circuit := {|
  num_wires := gan_dev_wires;
  num_params := 12;
  gates := real 0%nat 1%nat 2%nat ++ discriminator (fun i => (3 + i)%nat);
  observable := expval.PauliZ;
  obs_wire := 2
|}.

(** [gen_disc_circuit(gen_weights, disc_weights)] of cell 31: the generator
    weights take slots 0 to 8, the discriminator weights slots 9 to 17. *)
Definition gen_disc_circuit : Circuit := {|
  num_wires := gan_dev_wires;
  num_params := 18;
  gates := generator (fun i => i) ++ discriminator (fun i => (9 + i)%nat);
  observable := expval.PauliZ;
  obs_wire := 2
|}.

(** The fixed angles of the real data circuit, cell 35. *)
Definition phi : R := PI / 6.
Definition theta : R := PI / 2.
Definition omega : R := PI / 7.

(** Cell 33.  The notebook reads [gen_weights] and [disc_weights] from
    globals; here they are arguments. *)
Definition prob_real_true (disc_weights : list R) : result R :=
  true_disc_output <-
    evaluate exact real_disc_circuit ([phi; theta; omega] ++ disc_weights) ;;
  Ok ((true_disc_output + 1) / 2).

Definition prob_fake_true (gen_weights disc_weights : list R) : result R :=
  fake_disc_output <-
    evaluate exact gen_disc_circuit (gen_weights ++ disc_weights) ;;
  Ok ((fake_disc_output + 1) / 2).

Definition disc_cost (gen_weights disc_weights : list R) : result R :=
  pf <- prob_fake_true gen_weights disc_weights ;;
  pr <- prob_real_true disc_weights ;;
  Ok (pf - pr).

Definition gen_cost (disc_weights gen_weights : list R) : result R :=
  pf <- prob_fake_true gen_weights disc_weights ;;
  Ok (- pf).

(** ** Derivatives *)

Definition result_value (r : result R) : R :=
  match r with
  | Ok x => x
  | Err _ => 0
  end.

(** [d] is the partial derivative of [f] at [x] along component [i]. *)
Definition partial_at (f : list R -> result R) (x : list R) (i : nat) (d : R)
  : Prop :=
  derivable_pt_lim (fun t => result_value (f (set_nth i t x))) (nth i x 0) d.

(** Wherever the objective has a value, its [grad] returns one partial
    derivative per component. *)
Definition differentiable (objective : Objective R) : Prop :=
  forall x y,
    value objective x = Ok y ->
    exists g,
      grad objective x = Ok g
      /\ length g = length x
      /\ forall i, (i < length x)%nat ->
           partial_at (value objective) x i (nth i g 0).

Definition sign (x : R) : R :=
  if Rlt_dec 0 x then 1 else if Rlt_dec x 0 then - 1 else 0.

(** Modelled from the spec: the gradient of [cost], the derivative of the
    classical post-processing composed with the parameter-shift derivative
    of the circuit (chain rule); absolute value differentiates to [sign],
    a square to twice its argument, and a weight that the cost does not
    read has derivative zero. *)
Definition cost_grad (weights : list R) : result (list R) :=
  w0 <- index weights 0 ;;
  w1 <- index weights 1 ;;
  expval <- evaluate exact circuit [w0; w1] ;;
  g <- grad (qnode exact circuit) [w0; w1] ;;
  w2 <- index weights 2 ;;
  let d := 2 * Rabs (expval - target) * sign (expval - target) in
  Ok ([d * nth 0 g 0; d * nth 1 g 0; 2 * w2]
      ++ repeat 0 (length weights - 3)).

Definition cost_objective : Objective R :=
  {| value := cost; grad := cost_grad |}.

(** The training loop of cell 20: [n] optimizer steps in sequence. *)
Fixpoint train (n : nat) (o : GradientDescentOptimizer R)
    (objective : Objective R) (weights : list R) : result (list R) :=
  match n with
  | O => Ok weights
  | S n' => w <- step exact o objective weights ;; train n' o objective w
  end.

(** ** Rotations about one axis *)

(** The standard single-qubit rotation gates. *)
Inductive Axis : Set := AxisX | AxisY | AxisZ.

Definition rotation {P : Type} (a : Axis) (angle : P) (w : nat) : Gate P :=
  match a with
  | AxisX => RX angle w
  | AxisY => RY angle w
  | AxisZ => RZ angle w
  end.

(** ** Binary64 *)

(** The cosine and sine of a libm are exact at zero. *)
Definition exact_at_zero (L : Libm) : Prop :=
  fcos L 0%float = 1%float /\ fsin L 0%float = 0%float.

(** The columns of [m] are orthonormal. *)
Definition unitary2 (m : M2 R) : Prop :=
  Cabs2 exact (m00 m) + Cabs2 exact (m10 m) = 1
  /\ Cabs2 exact (m01 m) + Cabs2 exact (m11 m) = 1
  /\ Cre_dot exact (m00 m) (m01 m) + Cre_dot exact (m10 m) (m11 m) = 0
  /\ (fst (m00 m) * snd (m01 m) - snd (m00 m) * fst (m01 m))
     + (fst (m10 m) * snd (m11 m) - snd (m10 m) * fst (m11 m)) = 0.

(** [f] keeps the squared length of every amplitude pair. *)
Definition pair_isometry (f : Cx R -> Cx R -> Cx R * Cx R) : Prop :=
  forall x y,
    Cabs2 exact (fst (f x y)) + Cabs2 exact (snd (f x y))
    = Cabs2 exact x + Cabs2 exact y.

(** [g] undoes [f] on every amplitude pair. *)
Definition pair_inverse (f g : Cx R -> Cx R -> Cx R * Cx R) : Prop :=
  forall x y, g (fst (f x y)) (snd (f x y)) = (x, y).

(** The derivative the parameter-shift rule finds for each input of
    [circuit]. *)
Definition circuit_partial (x : R) (i : nat) : R :=
  match i with
  | O => - sin x
  | _ => 0
  end.

(** A small libm, by Taylor polynomials; exact at zero. *)
Definition taylor_libm : Libm := {|
  fcos := fun x =>
    let x2 := PrimFloat.mul x x in
    PrimFloat.add (PrimFloat.sub 1 (PrimFloat.div x2 2))
                  (PrimFloat.div (PrimFloat.mul x2 x2) 24);
  fsin := fun x =>
    PrimFloat.sub x (PrimFloat.div (PrimFloat.mul x (PrimFloat.mul x x)) 6)
|}.

(** [|v - 1| <= 1e-9] on binary64 values. *)
Definition near_one (v : float) : bool :=
  PrimFloat.leb (PrimFloat.abs (PrimFloat.sub v 1)) 0x1.12e0be826d695p-30.

(** What [bind] makes of [circuit] at the angles [x], [y]. *)
Definition circuit_at (x y : R) : BoundCircuit R := {|
  bwires := 2;
  bgates := [ops.Hadamard 1; RX x 0; RX y 1; CNOT 0 1];
  bobservable := expval.PauliZ;
  bobs_wire := 0
|}.

(** A circuit outside the notebook, one slot feeding two rotations of the
    same wire: the case the differentiator handles by summing the
    contributions of the two gates. *)
Definition shared_slot_circuit : Circuit := {|
  num_wires := 1;
  num_params := 1;
  gates := [RX 0%nat 0; RX 0%nat 0];
  observable := expval.PauliZ;
  obs_wire := 0
|}.

Definition two_rotations (x y : R) : BoundCircuit R := {|
  bwires := 1;
  bgates := [RX x 0; RX y 0];
  bobservable := expval.PauliZ;
  bobs_wire := 0
|}.

(** ** The expectation value on the amplitude list *)

(** Sum of the squared moduli of the amplitudes. *)
Fixpoint sum_abs2 (amps : list (Cx R)) : R :=
  match amps with
  | [] => 0
  | a :: amps' => Cabs2 exact a + sum_abs2 amps'
  end.

(** Sum of the squared moduli, each weighted by [weight] of its index; the
    head of the list has index [i]. *)
Fixpoint weighted_sum (weight : nat -> R) (i : nat) (amps : list (Cx R)) : R :=
  match amps with
  | [] => 0
  | a :: amps' => weight i * Cabs2 exact a + weighted_sum weight (S i) amps'
  end.

(** +1 where the bit of wire [w] in basis state [i] is 0, -1 where it is 1;
    wire 0 is the most significant of the [n] bits. *)
Definition pauliZ_weight (n w i : nat) : R :=
  if Nat.testbit i (n - 1 - w) then -1 else 1.

(** ** The register as a real vector space *)

Definition Cscale (r : R) (x : Cx R) : Cx R := (r * fst x, r * snd x).

Fixpoint vadd (n : nat) : qstate R n -> qstate R n -> qstate R n :=
  match n return qstate R n -> qstate R n -> qstate R n with
  | O => fun u v => Cadd exact u v
  | S k => fun u v => (vadd k (fst u) (fst v), vadd k (snd u) (snd v))
  end.

Fixpoint vscale (n : nat) (r : R) : qstate R n -> qstate R n :=
  match n return qstate R n -> qstate R n with
  | O => fun u => Cscale r u
  | S k => fun u => (vscale k r (fst u), vscale k r (snd u))
  end.

(** The combination [a u + b v]. *)
Definition lin2 (n : nat) (a : R) (u : qstate R n) (b : R) (v : qstate R n)
  : qstate R n :=
  vadd n (vscale n a u) (vscale n b v).

(** [F] commutes with real linear combinations. *)
Definition linear (n : nat) (F : qstate R n -> qstate R n) : Prop :=
  forall a u b v, F (lin2 n a u b v) = lin2 n a (F u) b (F v).

(** The same for a map on amplitude pairs. *)
Definition pair_linear (f : Cx R -> Cx R -> Cx R * Cx R) : Prop :=
  forall a x y b x' y',
    f (lin2 0 a x b x') (lin2 0 a y b y')
    = (lin2 0 a (fst (f x y)) b (fst (f x' y')),
       lin2 0 a (snd (f x y)) b (snd (f x' y'))).

(** The matrix of a rotation and the matrix [G] with
    rotation(t) = cos(t/2) I + sin(t/2) G. *)
Definition mat_rotation (a : Axis) (t : R) : M2 R :=
  match a with
  | AxisX => mat_RX exact t
  | AxisY => mat_RY exact t
  | AxisZ => mat_RZ exact t
  end.

Definition mat_generator (a : Axis) : M2 R :=
  match a with
  | AxisX => {| m00 := (0, 0); m01 := (0, -1); m10 := (0, -1); m11 := (0, 0) |}
  | AxisY => {| m00 := (0, 0); m01 := (-1, 0); m10 := (1, 0); m11 := (0, 0) |}
  | AxisZ => {| m00 := (0, -1); m01 := (0, 0); m10 := (0, 0); m11 := (0, 1) |}
  end.

(** The symmetric bilinear form whose diagonal is [expZ]. *)
Fixpoint expZ_bilinear (n : nat) (w : nat) : qstate R n -> qstate R n -> R :=
  match n return qstate R n -> qstate R n -> R with
  | O => fun _ _ => 0
  | S k => fun u v =>
      match w with
      | O => re_inner exact k (fst u) (fst v) - re_inner exact k (snd u) (snd v)
      | S w' => expZ_bilinear k w' (fst u) (fst v)
                + expZ_bilinear k w' (snd u) (snd v)
      end
  end.

(** The symmetric bilinear form whose diagonal is [expectation]. *)
Definition expectation_bilinear (n : nat) (o : expval.Observable) (w : nat)
    (u v : qstate R n) : R :=
  let sym m :=
    (re_inner exact n u (apply1 exact n m w v)
     + re_inner exact n v (apply1 exact n m w u)) / 2 in
  match o with
  | expval.PauliZ => expZ_bilinear n w u v
  | expval.PauliX => sym (mat_X exact)
  | expval.PauliY => sym (mat_Y exact)
  | expval.Hadamard => sym (mat_H exact)
  end.

(** The shape of an expectation value as a function of one rotation angle. *)
Definition sinusoid (alpha beta gamma t : R) : R :=
  alpha + beta * cos t + gamma * sin t.

(** What [bind] returns when it succeeds. *)
Definition bound (c : Circuit) (values : list R) : BoundCircuit R := {|
  bwires := num_wires c;
  bgates := map (gate_map (fun _ q => nth q values 0)) (gates c);
  bobservable := observable c;
  bobs_wire := obs_wire c
|}.

(** Slot [i] feeds exactly one gate, and that gate is an RX, RY or RZ. *)
Definition slot_feeds_one_rotation (c : Circuit) (i : nat) : bool :=
  match occurrences 0 i (gates c) with
  | [(k, O)] =>
      match nth_error (gates c) k with
      | Some (RX p _) | Some (RY p _) | Some (RZ p _) => p =? i
      | _ => false
      end
  | _ => false
  end.

(** Every input of the circuit does. *)
Definition rotation_slots (c : Circuit) : bool :=
  forallb (slot_feeds_one_rotation c) (seq 0 (num_params c)).

(** ** The register as a complex vector space *)

Fixpoint cscale (n : nat) (z : Cx R) : qstate R n -> qstate R n :=
  match n return qstate R n -> qstate R n with
  | O => fun u => Cmul exact z u
  | S k => fun u => (cscale k z (fst u), cscale k z (snd u))
  end.

(** The combination [a u + b v] with complex [a] and [b]. *)
Definition clin2 (n : nat) (a : Cx R) (u : qstate R n) (b : Cx R)
    (v : qstate R n) : qstate R n :=
  vadd n (cscale n a u) (cscale n b v).

(** [F] commutes with complex linear combinations. *)
Definition clinear (n : nat) (F : qstate R n -> qstate R n) : Prop :=
  forall a u b v, F (clin2 n a u b v) = clin2 n a (F u) b (F v).

(** ** Wires a gate acts on *)

Definition gate_touches {P : Type} (w : nat) (g : Gate P) : bool :=
  match g with
  | ops.Hadamard v | ops.PauliX v | ops.PauliY v | ops.PauliZ v
  | RX _ v | RY _ v | RZ _ v | PhaseShift _ v | Rot _ _ _ v => v =? w
  | CNOT c t => (c =? w) || (t =? w)
  end.

Definition is_cnot {P : Type} (g : Gate P) : bool :=
  match g with
  | CNOT _ _ => true
  | _ => false
  end.

(** No gate of the list acts on wire [w]. *)
Definition untouched {P : Type} (w : nat) (gs : list (Gate P)) : bool :=
  forallb (fun g => negb (gate_touches w g)) gs.

(** No controlled-NOT of the list acts on wire [w]. *)
Definition cnot_free {P : Type} (w : nat) (gs : list (Gate P)) : bool :=
  forallb (fun g => negb (is_cnot g && gate_touches w g)) gs.

(** The gate list without the one-wire gates on [w] that no controlled-NOT
    on [w] follows. *)
Fixpoint drop_dead {P : Type} (w : nat) (gs : list (Gate P)) : list (Gate P) :=
  match gs with
  | [] => []
  | g :: gs' =>
      if gate_touches w g && negb (is_cnot g) && cnot_free w gs'
      then drop_dead w gs'
      else g :: drop_dead w gs'
  end.

(** [m] is diagonal with entries of modulus 1. *)
Definition diagonal_phase (m : M2 R) : Prop :=
  m01 m = (0, 0) /\ m10 m = (0, 0)
  /\ Cabs2 exact (m00 m) = 1 /\ Cabs2 exact (m11 m) = 1.

(** [f] keeps the modulus of each amplitude of a pair. *)
Definition pair_phase (f : Cx R -> Cx R -> Cx R * Cx R) : Prop :=
  forall x y,
    Cabs2 exact (fst (f x y)) = Cabs2 exact x
    /\ Cabs2 exact (snd (f x y)) = Cabs2 exact y.

(** ** The objectives of the GAN *)

Fixpoint zip_with {T U V : Type} (f : T -> U -> V) (l : list T) (l' : list U)
  : list V :=
  match l, l' with
  | x :: t, y :: t' => f x y :: zip_with f t t'
  | _, _ => []
  end.

(** The parameter-shift derivatives of a quantum node in the given slots. *)
Definition qnode_partials (c : Circuit) (values : list R) (slots : list nat)
  : result (list R) :=
  g <- gradient exact c values slots ;; Ok (map snd g).

(** Modelled from the spec: the gradient of [disc_cost] in the discriminator
    weights, the derivative of the classical post-processing ((x + 1) / 2
    for each probability, then their difference) composed with the
    parameter-shift derivatives of the two circuits. *)
Definition disc_cost_grad (gen_weights disc_weights : list R)
  : result (list R) :=
  gf <- qnode_partials gen_disc_circuit (gen_weights ++ disc_weights)
          (seq 9 9) ;;
  gr <- qnode_partials real_disc_circuit ([phi; theta; omega] ++ disc_weights)
          (seq 3 9) ;;
  Ok (zip_with (fun f r => f / 2 - r / 2) gf gr).

(** Modelled from the spec: the gradient of [gen_cost] in the generator
    weights, by the same chain rule. *)
Definition gen_cost_grad (disc_weights gen_weights : list R)
  : result (list R) :=
  gf <- qnode_partials gen_disc_circuit (gen_weights ++ disc_weights)
          (seq 0 9) ;;
  Ok (map (fun f => - (f / 2)) gf).

(** [disc_cost] and [gen_cost] as the objectives handed to [opt.step] in
    cells 38 and 44; the weights of the other player are fixed. *)
Definition disc_objective (gen_weights : list R) : Objective R :=
  {| value := disc_cost gen_weights; grad := disc_cost_grad gen_weights |}.

Definition gen_objective (disc_weights : list R) : Objective R :=
  {| value := gen_cost disc_weights; grad := gen_cost_grad disc_weights |}.

(** * Properties *)

(** ** Elementary facts *)

Lemma rsqrt2_sqr : / sqrt 2 * / sqrt 2 = / 2.
Proof.
  rewrite <- Rinv_mult. rewrite sqrt_sqrt by lra. reflexivity.
Qed.

Lemma cos_sin_sqr (x : R) : cos x * cos x + sin x * sin x = 1.
Proof.
  generalize (sin2_cos2 x). unfold Rsqr. lra.
Qed.

Lemma Cabs2_nonneg (x : Cx R) : 0 <= Cabs2 exact x.
Proof.
  destruct x as [a b]. unfold_cx. nra.
Qed.

Lemma norm2_nonneg (n : nat) (psi : qstate R n) : 0 <= norm2 exact n psi.
Proof.
  induction n as [|k IH]; simpl.
  - apply Cabs2_nonneg.
  - destruct psi as [u v]. exact_arith.
    generalize (IH u) (IH v). lra.
Qed.

Lemma norm2_qzero (n : nat) : norm2 exact n (qzero exact n) = 0.
Proof.
  induction n as [|k IH]; simpl.
  - unfold_cx. ring.
  - exact_arith. rewrite IH. ring.
Qed.

Lemma norm2_basis0 (n : nat) : norm2 exact n (basis0 exact n) = 1.
Proof.
  induction n as [|k IH]; simpl.
  - unfold_cx. ring.
  - exact_arith. rewrite IH, norm2_qzero. ring.
Qed.

Lemma length_amplitudes (n : nat) (psi : qstate R n) :
  length (amplitudes n psi) = (2 ^ n)%nat.
Proof.
  induction n as [|k IH]; simpl.
  - reflexivity.
  - destruct psi as [u v]. simpl. rewrite length_app, !IH. lia.
Qed.



(** ** The nested register against the flat amplitude vector *)

Lemma sum_abs2_app (l1 l2 : list (Cx R)) :
  sum_abs2 (l1 ++ l2) = sum_abs2 l1 + sum_abs2 l2.
Proof.
  induction l1 as [|a l1 IH]; simpl.
  - ring.
  - rewrite IH. ring.
Qed.

Lemma norm2_sum_abs2 n (psi : qstate R n) :
  norm2 exact n psi = sum_abs2 (amplitudes n psi).
Proof.
  induction n as [|k IH]; simpl.
  - ring.
  - destruct psi as [u v]. exact_arith.
    rewrite sum_abs2_app, (IH u), (IH v). reflexivity.
Qed.

Lemma weighted_sum_app (f : nat -> R) (i : nat) (l1 l2 : list (Cx R)) :
  weighted_sum f i (l1 ++ l2)
  = weighted_sum f i l1 + weighted_sum f (i + length l1) l2.
Proof.
  revert i. induction l1 as [|a l1 IH]; intros i; simpl.
  - rewrite Nat.add_0_r. ring.
  - rewrite IH. replace (S i + length l1)%nat with (i + S (length l1))%nat by lia.
    ring.
Qed.

Lemma weighted_sum_ext (f g : nat -> R) (i : nat) (l : list (Cx R)) :
  (forall j, f j = g j) -> weighted_sum f i l = weighted_sum g i l.
Proof.
  intros E. revert i. induction l as [|a l IH]; intros i; simpl.
  - reflexivity.
  - rewrite E, IH. reflexivity.
Qed.

Lemma weighted_sum_constant (f : nat -> R) (c : R) (i : nat) (l : list (Cx R)) :
  (forall r, (r < length l)%nat -> f (i + r)%nat = c) ->
  weighted_sum f i l = c * sum_abs2 l.
Proof.
  revert i. induction l as [|a l IH]; intros i H; simpl.
  - ring.
  - rewrite IH.
    + rewrite <- (H 0%nat) by (simpl; lia). rewrite Nat.add_0_r. ring.
    + intros r Hr. rewrite <- (H (S r)) by (simpl; lia). f_equal. lia.
Qed.

Lemma testbit_block (q r k : nat) :
  (r < 2 ^ k)%nat -> Nat.testbit (q * 2 ^ k + r) k = Nat.odd q.
Proof.
  intros Hr.
  change k with (0 + k)%nat at 2. rewrite <- Nat.div_pow2_bits.
  rewrite Nat.div_add_l by (apply Nat.pow_nonzero; lia).
  rewrite Nat.div_small by exact Hr.
  rewrite Nat.add_0_r. apply Nat.bit0_odd.
Qed.

(** [expZ] is the sum over basis states of |amplitude|^2, weighted +1 where
    the bit of the wire is 0 and -1 where it is 1. *)
Lemma expZ_weighted_sum_from n w base (psi : qstate R n) :
  (w < n)%nat ->
  expZ exact n w psi
  = weighted_sum (pauliZ_weight n w) (base * 2 ^ n) (amplitudes n psi).
Proof.
  revert w base psi. induction n as [|k IH]; intros w base psi Hw.
  - lia.
  - destruct psi as [u v]. cbn [expZ amplitudes fst snd].
    rewrite weighted_sum_app, length_amplitudes.
    replace (base * 2 ^ S k)%nat with ((2 * base) * 2 ^ k)%nat
      by (simpl; lia).
    replace (2 * base * 2 ^ k + 2 ^ k)%nat with ((2 * base + 1) * 2 ^ k)%nat
      by lia.
    destruct w as [|w']; exact_arith.
    + rewrite (@weighted_sum_constant _ 1), (@weighted_sum_constant _ (-1)).
      * rewrite !norm2_sum_abs2. ring.
      * intros r Hr. rewrite length_amplitudes in Hr.
        unfold pauliZ_weight.
        replace (S k - 1 - 0)%nat with k by lia.
        rewrite testbit_block, Nat.odd_odd by exact Hr. reflexivity.
      * intros r Hr. rewrite length_amplitudes in Hr.
        unfold pauliZ_weight.
        replace (S k - 1 - 0)%nat with k by lia.
        rewrite testbit_block, Nat.odd_even by exact Hr. reflexivity.
    + rewrite (IH w' (2 * base)%nat u), (IH w' (2 * base + 1)%nat v) by lia.
      f_equal; apply weighted_sum_ext; intros j; unfold pauliZ_weight;
        replace (S k - 1 - S w')%nat with (k - 1 - w')%nat by lia;
        reflexivity.
Qed.

Lemma expZ_weighted_sum n w (psi : qstate R n) :
  (w < n)%nat ->
  expZ exact n w psi = weighted_sum (pauliZ_weight n w) 0 (amplitudes n psi).
Proof.
  intros Hw. apply (@expZ_weighted_sum_from n w 0 psi Hw).
Qed.

(** ** Unitary matrices keep the norm *)

Lemma mat_act_isometry (m : M2 R) :
  unitary2 m -> pair_isometry (mat_act exact m).
Proof.
  intros (H1 & H2 & H3 & H4) x y.
  destruct m as [[a1 a2] [b1 b2] [c1 c2] [d1 d2]], x as [x1 x2], y as [y1 y2].
  unfold_cx. cbn [m00 m01 m10 m11 fst snd] in *.
  transitivity
    ((a1 * a1 + a2 * a2 + (c1 * c1 + c2 * c2)) * (x1 * x1 + x2 * x2)
     + (b1 * b1 + b2 * b2 + (d1 * d1 + d2 * d2)) * (y1 * y1 + y2 * y2)
     + 2 * ((a1 * b1 + a2 * b2 + (c1 * d1 + c2 * d2)) * (x1 * y1 + x2 * y2)
            - (a1 * b2 - a2 * b1 + (c1 * d2 - c2 * d1)) * (x1 * y2 - x2 * y1))).
  - ring.
  - rewrite H1, H2, H3, H4. ring.
Qed.

Lemma zip2_norm2 (f : Cx R -> Cx R -> Cx R * Cx R) :
  pair_isometry f ->
  forall n (u v : qstate R n),
    norm2 exact n (fst (zip2 n f u v)) + norm2 exact n (snd (zip2 n f u v))
    = norm2 exact n u + norm2 exact n v.
Proof.
  intros Hf n. induction n as [|k IH]; intros u v; simpl.
  - apply Hf.
  - destruct u as [u0 u1], v as [v0 v1]. exact_arith.
    generalize (IH u0 v0) (IH u1 v1). lra.
Qed.

Lemma apply1_norm2 (m : M2 R) :
  unitary2 m ->
  forall n w (psi : qstate R n),
    norm2 exact n (apply1 exact n m w psi) = norm2 exact n psi.
Proof.
  intros Hm n. induction n as [|k IH]; intros w psi; simpl.
  - reflexivity.
  - destruct psi as [u v]. destruct w as [|w']; exact_arith.
    + apply zip2_norm2, mat_act_isometry, Hm.
    + simpl. exact_arith. rewrite !IH. reflexivity.
Qed.

Lemma swap_bit_norm2 n t (psi : qstate R n) :
  norm2 exact n (swap_bit n t psi) = norm2 exact n psi.
Proof.
  revert t psi. induction n as [|k IH]; intros t psi; simpl.
  - reflexivity.
  - destruct psi as [u v]. destruct t as [|t']; simpl; exact_arith.
    + ring.
    + rewrite !IH. reflexivity.
Qed.

Lemma cswap_norm2 n c (u v : qstate R n) :
  norm2 exact n (fst (cswap n c u v)) + norm2 exact n (snd (cswap n c u v))
  = norm2 exact n u + norm2 exact n v.
Proof.
  revert c u v. induction n as [|k IH]; intros c u v; simpl.
  - reflexivity.
  - destruct u as [u0 u1], v as [v0 v1]. destruct c as [|c']; simpl; exact_arith.
    + ring.
    + generalize (IH c' u0 v0) (IH c' u1 v1). lra.
Qed.

(** On two wires: controlled-NOT with control 0 exchanges |10> and |11>,
    with control 1 it exchanges |01> and |11>. *)
Lemma cnot_two_wires (K : Type) (a b c d : Cx K) :
  cnot 2 0 1 ((a, b), (c, d)) = ((a, b), (d, c))
  /\ cnot 2 1 0 ((a, b), (c, d)) = ((a, d), (c, b)).
Proof. split; reflexivity. Qed.

Lemma cnot_norm2 n c t (psi : qstate R n) :
  norm2 exact n (cnot n c t psi) = norm2 exact n psi.
Proof.
  revert c t psi. induction n as [|k IH]; intros c t psi; simpl.
  - reflexivity.
  - destruct psi as [u v].
    destruct c as [|c'], t as [|t']; simpl; exact_arith.
    + reflexivity.
    + rewrite swap_bit_norm2. reflexivity.
    + apply cswap_norm2.
    + rewrite !IH. reflexivity.
Qed.

Lemma unitary_H : unitary2 (mat_H exact).
Proof.
  unfold unitary2, mat_H. unfold_cx. cbn [m00 m01 m10 m11 fst snd].
  generalize rsqrt2_sqr. intros H. repeat split; nra.
Qed.

Lemma unitary_X : unitary2 (mat_X exact).
Proof.
  unfold unitary2, mat_X. unfold_cx. cbn [m00 m01 m10 m11 fst snd].
  repeat split; ring.
Qed.

Lemma unitary_Y : unitary2 (mat_Y exact).
Proof.
  unfold unitary2, mat_Y. unfold_cx. cbn [m00 m01 m10 m11 fst snd].
  repeat split; ring.
Qed.

Lemma unitary_Z : unitary2 (mat_Z exact).
Proof.
  unfold unitary2, mat_Z. unfold_cx. cbn [m00 m01 m10 m11 fst snd].
  repeat split; ring.
Qed.

Lemma unitary_RX t : unitary2 (mat_RX exact t).
Proof.
  unfold unitary2, mat_RX. unfold_cx. cbn [m00 m01 m10 m11 fst snd].
  generalize (cos_sin_sqr (t / 2)). intros H. repeat split; nra.
Qed.

Lemma unitary_RY t : unitary2 (mat_RY exact t).
Proof.
  unfold unitary2, mat_RY. unfold_cx. cbn [m00 m01 m10 m11 fst snd].
  generalize (cos_sin_sqr (t / 2)). intros H. repeat split; nra.
Qed.

Lemma unitary_RZ t : unitary2 (mat_RZ exact t).
Proof.
  unfold unitary2, mat_RZ. unfold_cx. cbn [m00 m01 m10 m11 fst snd].
  generalize (cos_sin_sqr (t / 2)). intros H. repeat split; nra.
Qed.

Lemma unitary_PhaseShift p : unitary2 (mat_PhaseShift exact p).
Proof.
  unfold unitary2, mat_PhaseShift. unfold_cx. cbn [m00 m01 m10 m11 fst snd].
  generalize (cos_sin_sqr p). intros H. repeat split; nra.
Qed.

Create HintDb unitary.

#[local] Hint Resolve unitary_H unitary_X unitary_Y unitary_Z
  unitary_RX unitary_RY unitary_RZ unitary_PhaseShift : unitary.

Lemma apply_gate_norm2 n (g : Gate R) (psi : qstate R n) :
  norm2 exact n (apply_gate exact n g psi) = norm2 exact n psi.
Proof.
  destruct g; simpl;
    repeat (rewrite apply1_norm2 by auto with unitary);
    try reflexivity.
  apply cnot_norm2.
Qed.

Lemma run_from_norm2 n (gs : list (Gate R)) (psi : qstate R n) :
  norm2 exact n (run_from exact n gs psi) = norm2 exact n psi.
Proof.
  revert psi. induction gs as [|g gs IH]; intros psi; simpl.
  - reflexivity.
  - rewrite IH. apply apply_gate_norm2.
Qed.

(** ** Execution: the machine and the simulator function agree *)

Section Machine.

Context {K : Type} (A : Scalars K).


Lemma exec_step_deterministic n (cfg cfg1 cfg2 : Config K n) :
  exec_step A cfg cfg1 -> exec_step A cfg cfg2 -> cfg1 = cfg2.
Proof.
  intros H1 H2. inversion H1; subst. inversion H2; subst. reflexivity.
Qed.



End Machine.


(** ** The register during an evaluation *)



(** ** Binding *)



(** ** Determinism *)




(** ** A rotation and its inverse *)

Lemma zip2_inverse (f g : Cx R -> Cx R -> Cx R * Cx R) :
  pair_inverse f g ->
  forall n (u v : qstate R n),
    zip2 n g (fst (zip2 n f u v)) (snd (zip2 n f u v)) = (u, v).
Proof.
  intros Hfg n. induction n as [|k IH]; intros u v; simpl.
  - apply Hfg.
  - destruct u as [u0 u1], v as [v0 v1]. simpl.
    rewrite (IH u0 v0), (IH u1 v1). reflexivity.
Qed.

Lemma apply1_inverse (m m' : M2 R) :
  pair_inverse (mat_act exact m) (mat_act exact m') ->
  forall n w (psi : qstate R n),
    apply1 exact n m' w (apply1 exact n m w psi) = psi.
Proof.
  intros Hm n. induction n as [|k IH]; intros w psi; simpl.
  - reflexivity.
  - destruct psi as [u v]. destruct w as [|w']; simpl.
    + apply zip2_inverse, Hm.
    + rewrite !IH. reflexivity.
Qed.

Lemma half_opp (t : R) : - t / 2 = - (t / 2).
Proof. field. Qed.

Ltac pair_inverse_by_trig t :=
  intros [x1 x2] [y1 y2]; unfold_cx; cbn [m00 m01 m10 m11 fst snd];
  rewrite half_opp, cos_neg, sin_neg;
  generalize (cos_sin_sqr (t / 2));
  generalize (cos (t / 2)) (sin (t / 2)); intros c s Hcs;
  f_equal; f_equal;
  match goal with
  | |- _ = ?z => transitivity ((c * c + s * s) * z); [ring | rewrite Hcs; ring]
  end.

Lemma RX_inverse t :
  pair_inverse (mat_act exact (mat_RX exact t)) (mat_act exact (mat_RX exact (- t))).
Proof. unfold mat_RX. pair_inverse_by_trig t. Qed.

Lemma RY_inverse t :
  pair_inverse (mat_act exact (mat_RY exact t)) (mat_act exact (mat_RY exact (- t))).
Proof. unfold mat_RY. pair_inverse_by_trig t. Qed.

Lemma RZ_inverse t :
  pair_inverse (mat_act exact (mat_RZ exact t)) (mat_act exact (mat_RZ exact (- t))).
Proof. unfold mat_RZ. pair_inverse_by_trig t. Qed.

Lemma rotation_undone (a : Axis) (t : R) (w n : nat) (psi : qstate R n) :
  apply_gate exact n (rotation a (- t) w) (apply_gate exact n (rotation a t w) psi)
  = psi.
Proof.
  destruct a; simpl; apply apply1_inverse.
  - apply RX_inverse.
  - apply RY_inverse.
  - apply RZ_inverse.
Qed.

Lemma run_from_app (K : Type) (A : Scalars K) n (gs1 gs2 : list (Gate K))
    (psi : qstate K n) :
  run_from A n (gs1 ++ gs2) psi = run_from A n gs2 (run_from A n gs1 psi).
Proof.
  revert psi. induction gs1 as [|g gs1 IH]; intros psi; simpl.
  - reflexivity.
  - apply IH.
Qed.

(** C5.  For a rotation about the X, Y or Z axis, any angle and any register
    state, the rotation followed by the same rotation with the opposite
    angle gives back the state; so a circuit with the pair inserted
    anywhere measures the same expectation value as the circuit without it,
    in particular to tolerance 1e-9. *)
Theorem rotation_round_trip :
  forall (a : Axis) (t : R) (w : nat),
    (forall n (psi : qstate R n),
        run_from exact n [rotation a t w; rotation a (- t) w] psi = psi)
    /\ (forall (b : BoundCircuit R) (before after : list (Gate R)),
        let with_pair :=
          with_gates b (before ++ [rotation a t w; rotation a (- t) w] ++ after) in
        let without := with_gates b (before ++ after) in
        measure exact with_pair = measure exact without
        /\ Rabs (measure exact with_pair - measure exact without) <= 1 / 10 ^ 9).
Proof.
  intros a t w.
  assert (Hpair : forall n (psi : qstate R n),
             run_from exact n [rotation a t w; rotation a (- t) w] psi = psi).
  { intros n psi. simpl. apply rotation_undone. }
  split; [exact Hpair|].
  intros b before after with_pair without.
  assert (E : measure exact with_pair = measure exact without).
  { unfold with_pair, without, measure, final_state, with_gates.
    cbn [bwires bgates bobservable bobs_wire].
    rewrite !run_from_app. rewrite Hpair. reflexivity. }
  split; [exact E|].
  rewrite E. unfold Rminus. rewrite Rplus_opp_r, Rabs_R0.
  apply Rlt_le, Rdiv_lt_0_compat; [lra | apply pow_lt; lra].
Qed.

(** ** The notebook's circuit in closed form *)

Lemma cos_double_half (a : R) :
  cos a = cos (a / 2) * cos (a / 2) - sin (a / 2) * sin (a / 2).
Proof.
  rewrite <- cos_2a. f_equal. field.
Qed.

Lemma circuit_bind (x y : R) : bind exact circuit [x; y] = Ok (circuit_at x y).
Proof. reflexivity. Qed.

Lemma circuit_measure (x y : R) : measure exact (circuit_at x y) = cos x.
Proof.
  rewrite (cos_double_half x).
  unfold measure, final_state, circuit_at. cbn.
  generalize (cos_sin_sqr (y / 2)) rsqrt2_sqr.
  generalize (cos (x / 2)) (sin (x / 2)) (cos (y / 2)) (sin (y / 2)) (/ sqrt 2).
  intros c1 s1 c2 s2 h H2 Hh.
  transitivity (2 * (h * h) * (c2 * c2 + s2 * s2) * (c1 * c1 - s1 * s1)).
  - ring.
  - rewrite H2, Hh. field.
Qed.

Lemma circuit_evaluate (x y : R) : evaluate exact circuit [x; y] = Ok (cos x).
Proof.
  unfold evaluate. rewrite circuit_bind. cbn [rbind].
  f_equal. apply circuit_measure.
Qed.

Lemma cos_shifted (x : R) :
  1 / 2 * (cos (x + PI / 2) - cos (x + - (PI / 2))) = - sin x.
Proof.
  rewrite !cos_plus, cos_neg, sin_neg, cos_PI2, sin_PI2. field.
Qed.

Lemma circuit_gradient (x y : R) (idxs : list nat) :
  gradient exact circuit [x; y] idxs
  = Ok (map (fun i => (i, circuit_partial x i)) idxs).
Proof.
  unfold gradient, bind, circuit, dev_wires. simpl. f_equal.
  apply map_ext. intros i. f_equal.
  destruct i as [|[|i]]; simpl;
    unfold shift_term, with_gates; simpl; exact_arith;
    fold (circuit_at (x + PI / 2) y); fold (circuit_at (x + - (PI / 2)) y);
    fold (circuit_at x (y + PI / 2)); fold (circuit_at x (y + - (PI / 2)));
    rewrite ?circuit_measure.
  - rewrite cos_shifted. ring.
  - ring.
  - reflexivity.
Qed.

Lemma derivable_pt_lim_ext (f g : R -> R) (x l : R) :
  (forall t, f t = g t) -> derivable_pt_lim f x l -> derivable_pt_lim g x l.
Proof.
  intros E H eps Heps. destruct (H eps Heps) as [delta Hd].
  exists delta. intros h Hh Hlt. rewrite <- !E. apply Hd; assumption.
Qed.

(** C9.  At every pair of real angles the notebook's circuit evaluates to
    the cosine of the first; the value does not depend on the second, the
    partial derivative with respect to the second is zero, and so is the
    entry the gradient operation returns for it. *)
Theorem circuit_is_cos_theta1 :
  forall t1 t2 : R,
    evaluate exact circuit [t1; t2] = Ok (cos t1)
    /\ (forall t2', evaluate exact circuit [t1; t2'] = evaluate exact circuit [t1; t2])
    /\ partial_at (evaluate exact circuit) [t1; t2] theta2 0
    /\ gradient exact circuit [t1; t2] [theta2] = Ok [(theta2, 0)].
Proof.
  intros t1 t2. repeat split.
  - apply circuit_evaluate.
  - intros t2'. rewrite !circuit_evaluate. reflexivity.
  - unfold partial_at, theta2.
    apply derivable_pt_lim_ext with (f := fun _ => cos t1).
    + intros t. cbn [set_nth]. rewrite circuit_evaluate. reflexivity.
    + apply derivable_pt_lim_const.
  - rewrite circuit_gradient. reflexivity.
Qed.

(** ** The circuit at the origin, in both arithmetics *)

Lemma taylor_exact_at_zero : exact_at_zero taylor_libm.
Proof. split; reflexivity. Qed.

(** With any libm that is exact at zero the binary64 run gives the value the
    notebook printed for [circuit(0, 0)], 0.9999999999999998: the amplitude
    1/sqrt 2 is rounded, and its two squares add up to 1 - 2^-52. *)
Lemma circuit_double_origin (L : Libm) :
  exact_at_zero L ->
  evaluate (double L) circuit [0%float; 0%float] = Ok 0x1.ffffffffffffep-1%float.
Proof.
  intros [Hc Hs].
  unfold evaluate, bind, circuit, dev_wires. simpl.
  unfold measure, final_state.
  cbn -[PrimFloat.add PrimFloat.sub PrimFloat.mul PrimFloat.opp
        PrimFloat.div PrimFloat.sqrt].
  replace (PrimFloat.div 0 2) with 0%float by reflexivity.
  rewrite Hc, Hs. vm_compute. reflexivity.
Qed.

(** C3, as stated, in binary64: [evaluate] at (0, 0) does not return 1.0. *)
Lemma circuit_at_origin_not_one :
  ~ (forall L : Libm,
        exact_at_zero L ->
        evaluate (double L) circuit [0%float; 0%float] = Ok 1%float).
Proof.
  intros H. specialize (H taylor_libm taylor_exact_at_zero).
  rewrite (circuit_double_origin taylor_exact_at_zero) in H.
  apply (f_equal (fun r => match r with
                            | Ok v => PrimFloat.eqb v 1
                            | Err _ => false
                            end)) in H.
  vm_compute in H. discriminate H.
Qed.

(** C3, amended.  At (0, 0) the circuit evaluates to 1 in exact arithmetic
    and, in binary64 with a libm exact at zero, to 0.9999999999999998, which
    is within 1e-9 of 1.0; the gradient at (0, 0) with respect to theta1 is
    0 to within 1e-9. *)
Theorem circuit_at_origin :
  evaluate exact circuit [0; 0] = Ok 1
  /\ (forall L : Libm,
        exact_at_zero L ->
        evaluate (double L) circuit [0%float; 0%float]
          = Ok 0x1.ffffffffffffep-1%float
        /\ near_one 0x1.ffffffffffffep-1 = true)
  /\ exists g d,
      gradient exact circuit [0; 0] [theta1] = Ok g
      /\ lookup theta1 g = Some d
      /\ Rabs (d - 0) <= 1 / 10 ^ 9.
Proof.
  split; [|split].
  - rewrite circuit_evaluate, cos_0. reflexivity.
  - intros L HL. split; [apply circuit_double_origin, HL | reflexivity].
  - exists [(theta1, circuit_partial 0 theta1)], (circuit_partial 0 theta1).
    split; [apply circuit_gradient|]. split; [reflexivity|].
    unfold circuit_partial, theta1. rewrite sin_0.
    replace (- 0 - 0) with 0 by ring. rewrite Rabs_R0.
    apply Rlt_le, Rdiv_lt_0_compat; [lra | apply pow_lt; lra].
Qed.

Lemma circuit_at_origin_witness :
  exact_at_zero taylor_libm
  /\ evaluate (double taylor_libm) circuit [0%float; 0%float]
     = Ok 0x1.ffffffffffffep-1%float.
Proof.
  split.
  - exact taylor_exact_at_zero.
  - exact (proj1 (proj1 (proj2 circuit_at_origin) taylor_libm taylor_exact_at_zero)).
Defined.

(** ** Shifting a slot and shifting the gate it feeds *)

Section Shifts.

Context {K : Type} (A : Scalars K).

Lemma length_set_nth (T : Type) (i : nat) (x : T) (l : list T) :
  length (set_nth i x l) = length l.
Proof.
  revert i. induction l as [|y l IH]; intros [|i]; simpl; auto.
Qed.

Lemma nth_set_nth_same (T : Type) (i : nat) (x d : T) (l : list T) :
  (i < length l)%nat -> nth i (set_nth i x l) d = x.
Proof.
  revert i. induction l as [|y l IH]; intros [|i] H; simpl in *; try lia.
  - reflexivity.
  - apply IH. lia.
Qed.

Lemma nth_set_nth_other (T : Type) (i j : nat) (x d : T) (l : list T) :
  i <> j -> nth j (set_nth i x l) d = nth j l d.
Proof.
  revert i j. induction l as [|y l IH]; intros [|i] [|j] H; simpl; auto.
  contradiction.
Qed.

Variables (values : list K) (i : nat) (d : K).
Hypothesis Hi : (i < length values)%nat.

Let shifted : list K := set_nth i (kadd A (nth i values (kzero A)) d) values.
Let bindg (v : list K) : Gate nat -> Gate K :=
  gate_map (fun _ q => nth q v (kzero A)).

Lemma nth_shifted_slot : nth i shifted (kzero A) = kadd A (nth i values (kzero A)) d.
Proof. apply nth_set_nth_same, Hi. Qed.

Lemma nth_shifted_other (q : nat) :
  (q =? i) = false -> nth q shifted (kzero A) = nth q values (kzero A).
Proof.
  intros H. apply nth_set_nth_other. apply Nat.eqb_neq in H. auto.
Qed.

Ltac split_slots H :=
  repeat match type of H with
         | context [?p =? i] =>
             let E := fresh "E" in destruct (p =? i) eqn:E
         end.

Ltac settle_slots :=
  repeat match goal with
         | E : (?p =? i) = true |- _ => apply Nat.eqb_eq in E; subst p
         end;
  rewrite ?nth_shifted_slot;
  repeat match goal with
         | E : (?p =? i) = false |- _ => rewrite (nth_shifted_other _ E)
         end.

(** A gate that slot [i] does not feed is bound alike. *)
Lemma bind_gate_unused (g : Gate nat) :
  positions 0 i (gate_params g) = [] -> bindg shifted g = bindg values g.
Proof.
  unfold bindg. destruct g; simpl; try reflexivity; intros H;
    split_slots H; try discriminate; settle_slots; reflexivity.
Qed.

(** A gate that slot [i] feeds at position [j] only. *)
Lemma bind_gate_once (g : Gate nat) (j : nat) :
  positions 0 i (gate_params g) = [j] ->
  bindg shifted g = shift_gate A j d (bindg values g).
Proof.
  unfold bindg, shift_gate.
  destruct g; simpl; try discriminate; intros H;
    split_slots H; try discriminate;
    injection H as <-; settle_slots; reflexivity.
Qed.

Lemma occurrences_from (k0 : nat) (gs : list (Gate nat)) (kj : nat * nat) :
  In kj (occurrences k0 i gs) -> (k0 <= fst kj)%nat.
Proof.
  revert k0. induction gs as [|g gs IH]; intros k0; simpl.
  - contradiction.
  - rewrite in_app_iff, in_map_iff. intros [(j & <- & _) | H].
    + simpl. lia.
    + apply IH in H. lia.
Qed.

Lemma bind_gates_unused (k0 : nat) (gs : list (Gate nat)) :
  occurrences k0 i gs = [] -> map (bindg shifted) gs = map (bindg values) gs.
Proof.
  revert k0. induction gs as [|g gs IH]; intros k0; simpl.
  - reflexivity.
  - intros H. apply app_eq_nil in H as [Hg Hgs].
    apply map_eq_nil in Hg.
    rewrite (bind_gate_unused _ Hg), (IH _ Hgs). reflexivity.
Qed.

(** If slot [i] feeds one parameter of one gate, binding the shifted vector
    is shifting that parameter of the bound gate. *)
Lemma bind_gates_once (k0 k j : nat) (gs : list (Gate nat)) :
  occurrences k0 i gs = [((k0 + k)%nat, j)] ->
  map (bindg shifted) gs = shift_at A k j d (map (bindg values) gs).
Proof.
  revert k0 k. induction gs as [|g gs IH]; intros k0 k; simpl.
  - discriminate.
  - intros H.
    destruct (positions 0 i (gate_params g)) as [|j0 pos] eqn:Hpos; simpl in H.
    + destruct k as [|k'].
      * assert (Hin : In ((k0 + 0)%nat, j) (occurrences (S k0) i gs))
          by (rewrite H; left; reflexivity).
        apply occurrences_from in Hin. simpl in Hin. lia.
      * rewrite (bind_gate_unused _ Hpos). cbn [shift_at]. f_equal.
        apply (IH (S k0) k'). rewrite H. f_equal. f_equal. lia.
    + injection H as Hk Hj Hrest.
      apply app_eq_nil in Hrest as [Hp Hgs]. apply map_eq_nil in Hp.
      subst pos j0.
      assert (k = 0)%nat by lia. subst k.
      rewrite (bind_gate_once _ Hpos), (bind_gates_unused _ _ Hgs).
      reflexivity.
Qed.

End Shifts.

(** ** The gradient of a slot that feeds one rotation *)

Lemma lookup_map_in (K : Type) (F : nat -> K) (i : nat) (l : list nat) :
  In i l -> lookup i (map (fun j => (j, F j)) l) = Some (F i).
Proof.
  induction l as [|j l IH]; simpl.
  - contradiction.
  - intros H. destruct (j =? i) eqn:E.
    + apply Nat.eqb_eq in E. subst j. reflexivity.
    + apply IH. destruct H as [H | H]; [|exact H].
      apply Nat.eqb_neq in E. contradiction.
Qed.

Lemma bind_ok (K : Type) (A : Scalars K) (c : Circuit) (values : list K) :
  length values = num_params c ->
  wires_ok c = true ->
  bind A c values
  = Ok {| bwires := num_wires c;
          bgates := map (gate_map (fun _ q => nth q values (kzero A))) (gates c);
          bobservable := observable c;
          bobs_wire := obs_wire c |}.
Proof.
  intros Hlen Hw. unfold bind. rewrite Hlen, Nat.eqb_refl, Hw. reflexivity.
Qed.

Lemma bind_bound (c : Circuit) (values : list R) :
  length values = num_params c ->
  wires_ok c = true ->
  bind exact c values = Ok (bound c values).
Proof. apply bind_ok. Qed.

Lemma evaluate_bound (c : Circuit) (values : list R) :
  length values = num_params c ->
  wires_ok c = true ->
  evaluate exact c values = Ok (measure exact (bound c values)).
Proof.
  intros Hlen Hw. unfold evaluate. rewrite bind_bound by assumption. reflexivity.
Qed.

(** The scale and the shift of a rotation are 1/2 and PI/2 whatever its
    axis, angle and wire, and binding does not change them. *)
Lemma shift_rule_rotation (P : Type) (a : Axis) (p : P) (w : nat) :
  shift_rule exact (rotation a p w) = Some (1 / 2, PI / 2).
Proof. destruct a; reflexivity. Qed.

Lemma shift_rule_bound (P Q : Type) (f : nat -> P -> Q) (g : Gate P) :
  shift_rule exact (gate_map f g) = shift_rule exact g.
Proof. destruct g; reflexivity. Qed.

(** The sum of contributions of a slot that feeds one rotation. *)
Lemma shift_sum_single (c : Circuit) (values : list R) (i k w : nat) (a : Axis) :
  (i < length values)%nat ->
  nth_error (gates c) k = Some (rotation a i w) ->
  occurrences 0 i (gates c) = [(k, 0%nat)] ->
  shift_sum exact (bound c values) (occurrences 0 i (gates c))
  = 1 / 2 * (measure exact (bound c (set_nth i (nth i values 0 + PI / 2) values))
             - measure exact (bound c (set_nth i (nth i values 0 - PI / 2) values))).
Proof.
  intros Hi Hgate Hocc.
  rewrite Hocc. cbn [shift_sum]. unfold shift_term.
  cbn [fst snd bgates bound].
  rewrite (map_nth_error _ _ _ Hgate).
  rewrite shift_rule_bound, shift_rule_rotation.
  pose proof (@bind_gates_once _ exact values i (PI / 2) Hi 0 k 0 (gates c) Hocc)
    as Hplus.
  pose proof (@bind_gates_once _ exact values i (- (PI / 2)) Hi 0 k 0 (gates c) Hocc)
    as Hminus.
  exact_arith. unfold with_gates, bound.
  cbn [bwires bgates bobservable bobs_wire].
  rewrite <- Hplus, <- Hminus. unfold Rminus at 3. ring.
Qed.

(** C1.  When slot [i] feeds one gate of the circuit and that gate is a
    rotation about the X, Y or Z axis, the gradient operation returns for
    [i] the value 1/2 * (f(v_plus) - f(v_minus)), where f is [evaluate] and
    v_plus, v_minus are the input vector with component [i] moved by +PI/2
    and -PI/2, the other components unchanged.  The constants 1/2 and PI/2
    are the same wherever the gate stands (any [k], any wire) and whatever
    the other components are. *)
Theorem parameter_shift_rotation :
  forall (c : Circuit) (values : list R) (with_respect_to : list nat)
         (i k w : nat) (a : Axis),
    length values = num_params c ->
    wires_ok c = true ->
    (i < length values)%nat ->
    nth_error (gates c) k = Some (rotation a i w) ->
    occurrences 0 i (gates c) = [(k, 0%nat)] ->
    In i with_respect_to ->
    exists f_plus f_minus g,
      evaluate exact c (set_nth i (nth i values 0 + PI / 2) values) = Ok f_plus
      /\ evaluate exact c (set_nth i (nth i values 0 - PI / 2) values) = Ok f_minus
      /\ gradient exact c values with_respect_to = Ok g
      /\ lookup i g = Some (1 / 2 * (f_plus - f_minus)).
Proof.
  intros c values idxs i k w a Hlen Hw Hi Hgate Hocc Hin.
  do 3 eexists.
  split; [apply evaluate_bound; rewrite ?length_set_nth; assumption|].
  split; [apply evaluate_bound; rewrite ?length_set_nth; assumption|].
  unfold gradient. rewrite bind_bound by assumption. cbn [rbind].
  split; [reflexivity|].
  rewrite (lookup_map_in _ _ _ Hin). f_equal.
  apply (@shift_sum_single c values i k w a); assumption.
Qed.

Lemma parameter_shift_rotation_witness :
  exists f_plus f_minus g,
    evaluate exact circuit (set_nth 0 (nth 0 [0; 0] 0 + PI / 2) [0; 0]) = Ok f_plus
    /\ evaluate exact circuit (set_nth 0 (nth 0 [0; 0] 0 - PI / 2) [0; 0]) = Ok f_minus
    /\ gradient exact circuit [0; 0] [theta1; theta2] = Ok g
    /\ lookup 0 g = Some (1 / 2 * (f_plus - f_minus)).
Proof.
  apply (@parameter_shift_rotation circuit [0; 0] [theta1; theta2]
           0%nat 1%nat 0%nat AxisX).
  - reflexivity.
  - reflexivity.
  - simpl. lia.
  - reflexivity.
  - reflexivity.
  - simpl. auto.
Defined.

(** *** A slot that feeds two gates *)

Lemma two_rotations_measure (x y : R) :
  measure exact (two_rotations x y) = cos (x + y).
Proof.
  replace (x + y) with (2 * (x / 2 + y / 2)) by field.
  rewrite cos_2a, cos_plus, sin_plus.
  unfold measure, final_state, two_rotations. cbn.
  ring.
Qed.

(** With a slot shared by two rotations the gradient is the sum of the two
    contributions, -2 sin (2 t), while the circuit at the two shifted input
    vectors has the same value: the two-evaluation formula is for a slot
    that feeds one gate. *)
Lemma shared_slot_gradient (t : R) :
  gradient exact shared_slot_circuit [t] [0%nat]
    = Ok [(0%nat, - sin (t + t) + (- sin (t + t) + 0))]
  /\ evaluate exact shared_slot_circuit [t + PI / 2] = Ok (- cos (t + t))
  /\ evaluate exact shared_slot_circuit [t - PI / 2] = Ok (- cos (t + t)).
Proof.
  split; [|split].
  - unfold gradient, bind, shared_slot_circuit. simpl. f_equal. f_equal. f_equal.
    unfold shift_term, with_gates. simpl. exact_arith.
    fold (two_rotations (t + PI / 2) t). fold (two_rotations (t + - (PI / 2)) t).
    fold (two_rotations t (t + PI / 2)). fold (two_rotations t (t + - (PI / 2))).
    rewrite !two_rotations_measure.
    replace (t + PI / 2 + t) with (t + t + PI / 2) by ring.
    replace (t + - (PI / 2) + t) with (t + t + - (PI / 2)) by ring.
    replace (t + (t + PI / 2)) with (t + t + PI / 2) by ring.
    replace (t + (t + - (PI / 2))) with (t + t + - (PI / 2)) by ring.
    rewrite cos_shifted. reflexivity.
  - unfold evaluate, bind, shared_slot_circuit. simpl. f_equal.
    fold (two_rotations (t + PI / 2) (t + PI / 2)).
    rewrite two_rotations_measure.
    replace (t + PI / 2 + (t + PI / 2)) with (t + t + PI) by field.
    rewrite cos_plus, cos_PI, sin_PI. ring.
  - unfold evaluate, bind, shared_slot_circuit. simpl. f_equal.
    fold (two_rotations (t - PI / 2) (t - PI / 2)).
    rewrite two_rotations_measure.
    replace (t - PI / 2 + (t - PI / 2)) with (t + t - PI) by field.
    rewrite cos_minus, cos_PI, sin_PI. ring.
Qed.

(** ** Pauli-Z expectation values and the probabilities of the GAN *)

Lemma expZ_bound n w (psi : qstate R n) :
  - norm2 exact n psi <= expZ exact n w psi <= norm2 exact n psi.
Proof.
  revert w psi. induction n as [|k IH]; intros w psi; simpl.
  - generalize (Cabs2_nonneg psi). unfold Cabs2. exact_arith. lra.
  - destruct psi as [u v]. destruct w as [|w']; exact_arith.
    + generalize (norm2_nonneg k u) (norm2_nonneg k v). lra.
    + generalize (IH w' u) (IH w' v). lra.
Qed.

Lemma measure_PauliZ_range (b : BoundCircuit R) :
  bobservable b = expval.PauliZ -> -1 <= measure exact b <= 1.
Proof.
  intros Hobs. unfold measure. rewrite Hobs. simpl.
  generalize (expZ_bound (bwires b) (bobs_wire b) (final_state exact b)).
  unfold final_state. rewrite run_from_norm2, norm2_basis0. lra.
Qed.

Lemma evaluate_PauliZ_range (c : Circuit) (values : list R) (r : R) :
  observable c = expval.PauliZ ->
  evaluate exact c values = Ok r -> -1 <= r <= 1.
Proof.
  intros Hobs. unfold evaluate.
  destruct (bind exact c values) as [b|e] eqn:Hb; simpl; [|discriminate].
  intros [= <-]. apply measure_PauliZ_range.
  unfold bind in Hb.
  destruct (negb (length values =? num_params c)); [discriminate|].
  destruct (negb (wires_ok c)); [discriminate|].
  injection Hb as <-. exact Hobs.
Qed.

Lemma evaluate_ok (c : Circuit) (values : list R) :
  length values = num_params c ->
  wires_ok c = true ->
  exists r, evaluate exact c values = Ok r.
Proof.
  intros Hlen Hw. unfold evaluate. rewrite (bind_ok exact _ _ Hlen Hw).
  simpl. eexists. reflexivity.
Qed.

Lemma prob_real_true_range (disc_weights : list R) (p : R) :
  prob_real_true disc_weights = Ok p -> 0 <= p <= 1.
Proof.
  unfold prob_real_true.
  destruct (evaluate exact real_disc_circuit _) as [x|e] eqn:Hx;
    cbn [rbind]; [|discriminate].
  intros [= <-].
  pose proof (@evaluate_PauliZ_range real_disc_circuit _ _ eq_refl Hx). lra.
Qed.

Lemma prob_fake_true_range (gen_weights disc_weights : list R) (p : R) :
  prob_fake_true gen_weights disc_weights = Ok p -> 0 <= p <= 1.
Proof.
  unfold prob_fake_true.
  destruct (evaluate exact gen_disc_circuit _) as [x|e] eqn:Hx;
    cbn [rbind]; [|discriminate].
  intros [= <-].
  pose proof (@evaluate_PauliZ_range gen_disc_circuit _ _ eq_refl Hx). lra.
Qed.

Lemma disc_cost_range (gen_weights disc_weights : list R) (d : R) :
  disc_cost gen_weights disc_weights = Ok d -> -1 <= d <= 1.
Proof.
  unfold disc_cost.
  destruct (prob_fake_true gen_weights disc_weights) as [pf|e] eqn:Hf;
    cbn [rbind]; [|discriminate].
  destruct (prob_real_true disc_weights) as [pr|e] eqn:Hr;
    cbn [rbind]; [|discriminate].
  intros [= <-].
  pose proof (prob_fake_true_range _ _ Hf).
  pose proof (prob_real_true_range _ Hr). lra.
Qed.

Lemma gan_values (gen_weights disc_weights : list R) :
  length gen_weights = 9%nat ->
  length disc_weights = 9%nat ->
  exists xr xf,
    evaluate exact real_disc_circuit ([phi; theta; omega] ++ disc_weights) = Ok xr
    /\ evaluate exact gen_disc_circuit (gen_weights ++ disc_weights) = Ok xf
    /\ -1 <= xr <= 1
    /\ -1 <= xf <= 1
    /\ prob_real_true disc_weights = Ok ((xr + 1) / 2)
    /\ prob_fake_true gen_weights disc_weights = Ok ((xf + 1) / 2)
    /\ disc_cost gen_weights disc_weights = Ok ((xf + 1) / 2 - (xr + 1) / 2).
Proof.
  intros Hg Hd.
  destruct (@evaluate_ok real_disc_circuit ([phi; theta; omega] ++ disc_weights))
    as [xr Hxr];
    [rewrite length_app, Hd; reflexivity | reflexivity |].
  destruct (@evaluate_ok gen_disc_circuit (gen_weights ++ disc_weights))
    as [xf Hxf];
    [rewrite length_app, Hg, Hd; reflexivity | reflexivity |].
  pose proof (@evaluate_PauliZ_range real_disc_circuit _ _ eq_refl Hxr) as Rr.
  pose proof (@evaluate_PauliZ_range gen_disc_circuit _ _ eq_refl Hxf) as Rf.
  exists xr, xf.
  unfold disc_cost, prob_real_true, prob_fake_true.
  rewrite Hxr, Hxf. cbn [rbind].
  repeat split; try reflexivity; lra.
Qed.

(** C10.  Whatever the weight vectors, a value that [prob_real_true] or
    [prob_fake_true] returns lies in [0, 1] and a value that [disc_cost]
    returns lies in [-1, 1].  For weight vectors of the nine entries the
    circuits read, all three return a value: each probability is the affine
    image (x + 1) / 2 of a Pauli-Z expectation value x, which lies in
    [-1, 1], and [disc_cost] is the difference of the two. *)
Theorem gan_probabilities_in_range :
  forall gen_weights disc_weights : list R,
    (forall p, prob_real_true disc_weights = Ok p -> 0 <= p <= 1)
    /\ (forall p, prob_fake_true gen_weights disc_weights = Ok p -> 0 <= p <= 1)
    /\ (forall d, disc_cost gen_weights disc_weights = Ok d -> -1 <= d <= 1)
    /\ (length gen_weights = 9%nat ->
        length disc_weights = 9%nat ->
        exists xr xf,
          evaluate exact real_disc_circuit ([phi; theta; omega] ++ disc_weights)
            = Ok xr
          /\ evaluate exact gen_disc_circuit (gen_weights ++ disc_weights)
             = Ok xf
          /\ -1 <= xr <= 1
          /\ -1 <= xf <= 1
          /\ prob_real_true disc_weights = Ok ((xr + 1) / 2)
          /\ prob_fake_true gen_weights disc_weights = Ok ((xf + 1) / 2)
          /\ disc_cost gen_weights disc_weights
             = Ok ((xf + 1) / 2 - (xr + 1) / 2)).
Proof.
  intros gw dw. split; [|split; [|split]].
  - apply prob_real_true_range.
  - apply prob_fake_true_range.
  - apply disc_cost_range.
  - apply gan_values.
Qed.

Lemma gan_probabilities_in_range_witness :
  exists xr xf,
    evaluate exact real_disc_circuit ([phi; theta; omega] ++ repeat 0 9) = Ok xr
    /\ evaluate exact gen_disc_circuit (repeat 0 9 ++ repeat 0 9) = Ok xf
    /\ -1 <= xr <= 1
    /\ -1 <= xf <= 1
    /\ prob_real_true (repeat 0 9) = Ok ((xr + 1) / 2)
    /\ prob_fake_true (repeat 0 9) (repeat 0 9) = Ok ((xf + 1) / 2)
    /\ disc_cost (repeat 0 9) (repeat 0 9) = Ok ((xf + 1) / 2 - (xr + 1) / 2).
Proof.
  apply (proj2 (proj2 (proj2
           (gan_probabilities_in_range (repeat 0 9) (repeat 0 9)))));
    reflexivity.
Defined.

(** ** Gradient descent *)

Lemma length_apply_grad (eta : R) (g x : list R) :
  length g = length x -> length (apply_grad exact eta g x) = length x.
Proof.
  revert x. induction g as [|gi g IH]; intros [|xi x] H; simpl in *;
    try discriminate; auto.
Qed.

Lemma nth_apply_grad (eta : R) (g x : list R) (i : nat) :
  length g = length x ->
  (i < length x)%nat ->
  nth i (apply_grad exact eta g x) 0 = nth i x 0 - eta * nth i g 0.
Proof.
  revert x i. induction g as [|gi g IH]; intros [|xi x] i H Hi; simpl in *;
    try discriminate; try lia.
  destruct i as [|i].
  - reflexivity.
  - apply IH; lia.
Qed.

(** *** The notebook's objectives are differentiable *)

Lemma circuit_value_inv (x : list R) (y : R) :
  evaluate exact circuit x = Ok y -> exists a b, x = [a; b].
Proof.
  destruct x as [|a [|b [|c x]]]; try discriminate; eauto.
Qed.

Lemma circuit_qnode_grad (a b : R) :
  grad (qnode exact circuit) [a; b] = Ok [- sin a; 0].
Proof.
  cbn [grad qnode]. change (num_params circuit) with 2%nat.
  rewrite circuit_gradient. reflexivity.
Qed.

Lemma circuit_differentiable : differentiable (qnode exact circuit).
Proof.
  intros x y Hy. cbn [value qnode] in *.
  destruct (circuit_value_inv _ Hy) as (a & b & ->).
  exists [- sin a; 0]. split; [apply circuit_qnode_grad|].
  split; [reflexivity|].
  intros i Hi. unfold partial_at.
  destruct i as [|[|i]]; [| |simpl in Hi; lia]; cbn [nth set_nth].
  - apply derivable_pt_lim_ext with (f := cos).
    + intros t. rewrite circuit_evaluate. reflexivity.
    + apply derivable_pt_lim_cos.
  - apply derivable_pt_lim_ext with (f := fun _ => cos a).
    + intros t. rewrite circuit_evaluate. reflexivity.
    + apply derivable_pt_lim_const.
Qed.

Lemma cost_value (w0 w1 w2 : R) (rest : list R) :
  cost (w0 :: w1 :: w2 :: rest) = Ok ((cos w0 - target) ^ 2 + w2 ^ 2).
Proof.
  unfold cost, index. cbn [nth_error rbind].
  rewrite circuit_evaluate. cbn [rbind].
  rewrite pow2_abs. reflexivity.
Qed.

Lemma cost_value_inv (x : list R) (y : R) :
  cost x = Ok y -> exists w0 w1 w2 rest, x = w0 :: w1 :: w2 :: rest.
Proof.
  destruct x as [|w0 [|w1 [|w2 rest]]]; intros H.
  - discriminate.
  - discriminate.
  - unfold cost, index in H. cbn [nth_error rbind] in H.
    rewrite circuit_evaluate in H. discriminate.
  - eauto.
Qed.

Lemma abs_sign (x : R) : Rabs x * sign x = x.
Proof.
  unfold sign. destruct (Rlt_dec 0 x) as [Hp | Hp].
  - rewrite Rabs_right by lra. ring.
  - destruct (Rlt_dec x 0) as [Hn | Hn].
    + rewrite Rabs_left by lra. ring.
    + assert (x = 0) by lra. subst x. rewrite Rabs_R0. ring.
Qed.

Lemma cost_grad_value (w0 w1 w2 : R) (rest : list R) :
  cost_grad (w0 :: w1 :: w2 :: rest)
  = Ok ([2 * (cos w0 - target) * - sin w0; 0; 2 * w2]
        ++ repeat 0 (length rest)).
Proof.
  unfold cost_grad, index. cbn [nth_error rbind].
  rewrite circuit_evaluate, circuit_qnode_grad. cbn [rbind nth].
  change (length (w0 :: w1 :: w2 :: rest) - 3)%nat with (length rest - 0)%nat.
  rewrite Nat.sub_0_r, (Rmult_assoc 2), abs_sign.
  replace (2 * (cos w0 - target) * 0) with 0 by ring.
  reflexivity.
Qed.

Lemma square_shifted_cos_derivative (w0 c : R) :
  derivable_pt_lim (fun t => (cos t - target) ^ 2 + c) w0
    (2 * (cos w0 - target) * - sin w0).
Proof.
  pose proof (derivable_pt_lim_minus _ _ _ _ _
                (derivable_pt_lim_cos w0)
                (derivable_pt_lim_const target w0)) as D1.
  pose proof (derivable_pt_lim_mult _ _ _ _ _ D1 D1) as D2.
  pose proof (derivable_pt_lim_plus _ _ _ _ _ D2
                (derivable_pt_lim_const c w0)) as D3.
  replace (2 * (cos w0 - target) * - sin w0)
    with ((- sin w0 - 0) * (cos - fct_cte target)%F w0
          + (cos - fct_cte target)%F w0 * (- sin w0 - 0) + 0)
    by (unfold minus_fct, fct_cte; ring).
  apply derivable_pt_lim_ext with (2 := D3).
  intros t. unfold plus_fct, mult_fct, minus_fct, fct_cte. ring.
Qed.

Lemma square_derivative (w2 c : R) :
  derivable_pt_lim (fun t => c + t ^ 2) w2 (2 * w2).
Proof.
  pose proof (derivable_pt_lim_mult _ _ _ _ _
                (derivable_pt_lim_id w2) (derivable_pt_lim_id w2)) as D2.
  pose proof (derivable_pt_lim_plus _ _ _ _ _
                (derivable_pt_lim_const c w2) D2) as D3.
  replace (2 * w2) with (0 + (1 * id w2 + id w2 * 1)) by (unfold id; ring).
  apply derivable_pt_lim_ext with (2 := D3).
  intros t. unfold plus_fct, mult_fct, fct_cte, id. ring.
Qed.

Lemma nth_repeat_zero (i n : nat) : nth i (repeat 0 n) 0 = 0.
Proof.
  revert i. induction n as [|n IH]; intros [|i]; simpl; auto.
Qed.

Lemma cost_differentiable : differentiable cost_objective.
Proof.
  intros x y Hy. cbn [value grad cost_objective] in *.
  destruct (cost_value_inv _ Hy) as (w0 & w1 & w2 & rest & ->).
  eexists. split; [apply cost_grad_value|].
  split; [simpl; rewrite repeat_length; reflexivity|].
  intros i Hi. unfold partial_at.
  destruct i as [|[|[|i]]]; cbn [nth set_nth app].
  - apply derivable_pt_lim_ext
      with (f := fun t => (cos t - target) ^ 2 + w2 ^ 2).
    + intros t. rewrite cost_value. reflexivity.
    + apply square_shifted_cos_derivative.
  - apply derivable_pt_lim_ext
      with (f := fun _ => (cos w0 - target) ^ 2 + w2 ^ 2).
    + intros t. rewrite cost_value. reflexivity.
    + apply derivable_pt_lim_const.
  - apply derivable_pt_lim_ext
      with (f := fun t => (cos w0 - target) ^ 2 + t ^ 2).
    + intros t. rewrite cost_value. reflexivity.
    + apply square_derivative.
  - rewrite nth_repeat_zero.
    apply derivable_pt_lim_ext
      with (f := fun _ => (cos w0 - target) ^ 2 + w2 ^ 2).
    + intros t. rewrite cost_value. reflexivity.
    + apply derivable_pt_lim_const.
Qed.

(** C2.  For a differentiable objective, a parameter vector [x] at which it
    has a value and a learning rate [stepsize o], one optimizer step
    returns [x - stepsize o * g] component by component, where [g] is the
    gradient of the objective at [x] as its differentiation delivers it
    (for [cost], the chain rule through the classical post-processing).
    The step has no state to keep: it returns the updated vector only, and
    optimizers with the same learning rate return the same vector. *)
Theorem gradient_descent_step :
  forall (objective : Objective R) (o : GradientDescentOptimizer R)
         (x : list R) (y : R),
    differentiable objective ->
    value objective x = Ok y ->
    exists g x',
      grad objective x = Ok g
      /\ step exact o objective x = Ok x'
      /\ length x' = length x
      /\ (forall i, (i < length x)%nat ->
            partial_at (value objective) x i (nth i g 0)
            /\ nth i x' 0 = nth i x 0 - stepsize o * nth i g 0)
      /\ (forall o' : GradientDescentOptimizer R,
            stepsize o' = stepsize o ->
            step exact o' objective x = Ok x').
Proof.
  intros objective o x y Hdiff Hy.
  destruct (Hdiff x y Hy) as (g & Hg & Hlen & Hpart).
  exists g, (apply_grad exact (stepsize o) g x).
  unfold step. rewrite Hg. cbn [rbind].
  repeat split.
  - apply length_apply_grad, Hlen.
  - apply Hpart, H.
  - apply nth_apply_grad; assumption.
  - intros o' Ho. rewrite Ho. reflexivity.
Qed.

Lemma gradient_descent_step_witness :
  exists g x',
    grad cost_objective [0; 0; 0] = Ok g
    /\ step exact opt cost_objective [0; 0; 0] = Ok x'
    /\ length x' = length [0; 0; 0]
    /\ (forall i, (i < length [0; 0; 0])%nat ->
          partial_at (value cost_objective) [0; 0; 0] i (nth i g 0)
          /\ nth i x' 0 = nth i [0; 0; 0] 0 - stepsize opt * nth i g 0)
    /\ (forall o' : GradientDescentOptimizer R,
          stepsize o' = stepsize opt ->
          step exact o' cost_objective [0; 0; 0] = Ok x').
Proof.
  apply (@gradient_descent_step cost_objective opt [0; 0; 0]
           ((cos 0 - target) ^ 2 + 0 ^ 2)).
  - exact cost_differentiable.
  - apply cost_value.
Defined.

(** ** The training loop *)

Lemma cost_step (w0 w1 w2 : R) :
  step exact opt cost_objective [w0; w1; w2]
  = Ok [w0 - eta * (2 * (cos w0 - target) * - sin w0);
        w1 - eta * 0;
        w2 - eta * (2 * w2)].
Proof.
  unfold step. cbn [grad cost_objective]. rewrite cost_grad_value. reflexivity.
Qed.

(** The notebook's remark that some initial values take more steps: from a
    first weight of exactly 0, which lies in [0, 1), the first weight never
    moves and the cost stays at or above (1 - 0.33)^2. *)
Lemma train_from_zero_angle (n : nat) (w1 w2 : R) :
  exists w2',
    train n opt cost_objective [0; w1; w2] = Ok [0; w1; w2']
    /\ cost [0; w1; w2'] = Ok ((1 - target) ^ 2 + w2' ^ 2)
    /\ 1 / 10 ^ 6 < (1 - target) ^ 2 + w2' ^ 2.
Proof.
  revert w2. induction n as [|n IH]; intros w2.
  - exists w2. split; [reflexivity|]. split.
    + rewrite cost_value, cos_0. reflexivity.
    + unfold target. nra.
  - destruct (IH (w2 - eta * (2 * w2))) as (w2' & Ht & Hc & Hlt).
    exists w2'. split; [|split; assumption].
    cbn [train]. rewrite cost_step. cbn [rbind].
    rewrite sin_0.
    replace (0 - eta * (2 * (cos 0 - target) * - 0)) with 0 by ring.
    replace (w1 - eta * 0) with w1 by ring.
    exact Ht.
Qed.

(** ** Gates are linear *)

Lemma lin2_S k a (p : qstate R (S k)) b (q : qstate R (S k)) :
  lin2 (S k) a p b q
  = (lin2 k a (fst p) b (fst q), lin2 k a (snd p) b (snd q)).
Proof. reflexivity. Qed.

Lemma zip2_linear (f : Cx R -> Cx R -> Cx R * Cx R) :
  pair_linear f ->
  forall n a (u v : qstate R n) b (u' v' : qstate R n),
    zip2 n f (lin2 n a u b u') (lin2 n a v b v')
    = (lin2 n a (fst (zip2 n f u v)) b (fst (zip2 n f u' v')),
       lin2 n a (snd (zip2 n f u v)) b (snd (zip2 n f u' v'))).
Proof.
  intros Hf n. induction n as [|k IH]; intros a u v b u' v'.
  - apply Hf.
  - rewrite !lin2_S. cbn [zip2 fst snd].
    rewrite !IH. reflexivity.
Qed.

Lemma mat_act_linear (m : M2 R) : pair_linear (mat_act exact m).
Proof.
  intros a [x1 x2] [y1 y2] b [x1' x2'] [y1' y2'].
  destruct m as [[a1 a2] [b1 b2] [c1 c2] [d1 d2]].
  unfold lin2, vadd, vscale, Cscale. unfold_cx. cbn [m00 m01 m10 m11 fst snd].
  f_equal; f_equal; ring.
Qed.

Lemma apply1_linear (m : M2 R) n w : linear n (apply1 exact n m w).
Proof.
  revert w. induction n as [|k IH]; intros w a u b v.
  - reflexivity.
  - rewrite !lin2_S. destruct w as [|w']; cbn [apply1 fst snd].
    + rewrite (zip2_linear (mat_act_linear m)). reflexivity.
    + rewrite !IH. reflexivity.
Qed.

Lemma swap_bit_linear n t : linear n (swap_bit n t).
Proof.
  revert t. induction n as [|k IH]; intros t a u b v.
  - reflexivity.
  - rewrite !lin2_S. destruct t as [|t']; cbn [swap_bit fst snd].
    + reflexivity.
    + rewrite !IH. reflexivity.
Qed.

Lemma cswap_linear n c a (u v : qstate R n) b (u' v' : qstate R n) :
  cswap n c (lin2 n a u b u') (lin2 n a v b v')
  = (lin2 n a (fst (cswap n c u v)) b (fst (cswap n c u' v')),
     lin2 n a (snd (cswap n c u v)) b (snd (cswap n c u' v'))).
Proof.
  revert c u v u' v'. induction n as [|k IH]; intros c u v u' v'.
  - reflexivity.
  - rewrite !lin2_S. destruct c as [|c']; cbn [cswap fst snd].
    + reflexivity.
    + rewrite !IH. reflexivity.
Qed.

Lemma cnot_linear n c t : linear n (cnot n c t).
Proof.
  revert c t. induction n as [|k IH]; intros c t a u b v.
  - reflexivity.
  - rewrite !lin2_S. destruct c as [|c'], t as [|t']; cbn [cnot fst snd].
    + reflexivity.
    + rewrite swap_bit_linear. reflexivity.
    + rewrite cswap_linear. reflexivity.
    + rewrite !IH. reflexivity.
Qed.

Lemma apply_gate_linear n (g : Gate R) : linear n (apply_gate exact n g).
Proof.
  intros a u b v. destruct g; cbn [apply_gate];
    rewrite ?apply1_linear; try reflexivity.
  apply cnot_linear.
Qed.

Lemma run_from_linear n (gs : list (Gate R)) : linear n (run_from exact n gs).
Proof.
  induction gs as [|g gs IH]; intros a u b v; cbn [run_from].
  - reflexivity.
  - rewrite apply_gate_linear. apply IH.
Qed.

(** ** A rotation is cos(t/2) I + sin(t/2) G *)

Lemma rotation_pair_decomposition (ax : Axis) (t : R) (x y : Cx R) :
  mat_act exact (mat_rotation ax t) x y
  = (lin2 0 (cos (t / 2)) x (sin (t / 2))
       (fst (mat_act exact (mat_generator ax) x y)),
     lin2 0 (cos (t / 2)) y (sin (t / 2))
       (snd (mat_act exact (mat_generator ax) x y))).
Proof.
  destruct x as [x1 x2], y as [y1 y2].
  destruct ax; unfold mat_rotation, mat_generator, mat_RX, mat_RY, mat_RZ;
    unfold lin2, vadd, vscale, Cscale; unfold_cx;
    cbn [m00 m01 m10 m11 fst snd];
    f_equal; f_equal; ring.
Qed.

Lemma zip2_decomposition (f g : Cx R -> Cx R -> Cx R * Cx R) (c s : R) :
  (forall x y, f x y = (lin2 0 c x s (fst (g x y)), lin2 0 c y s (snd (g x y)))) ->
  forall n (u v : qstate R n),
    zip2 n f u v
    = (lin2 n c u s (fst (zip2 n g u v)), lin2 n c v s (snd (zip2 n g u v))).
Proof.
  intros H n. induction n as [|k IH]; intros u v.
  - apply H.
  - cbn [zip2]. rewrite !IH. rewrite !lin2_S. reflexivity.
Qed.

Lemma apply1_rotation (ax : Axis) (t : R) n w (psi : qstate R n) :
  (w < n)%nat ->
  apply1 exact n (mat_rotation ax t) w psi
  = lin2 n (cos (t / 2)) psi (sin (t / 2))
      (apply1 exact n (mat_generator ax) w psi).
Proof.
  revert w psi. induction n as [|k IH]; intros w psi Hw.
  - lia.
  - rewrite lin2_S. destruct w as [|w']; cbn [apply1 fst snd].
    + apply zip2_decomposition. intros x y. apply rotation_pair_decomposition.
    + rewrite !IH by lia. reflexivity.
Qed.

Lemma apply_gate_rotation (ax : Axis) (t : R) n w (psi : qstate R n) :
  apply_gate exact n (rotation ax t w) psi
  = apply1 exact n (mat_rotation ax t) w psi.
Proof. destruct ax; reflexivity. Qed.

(** ** Expectation values are quadratic forms *)

Lemma re_inner_lin2_r n (z : qstate R n) a u b v :
  re_inner exact n z (lin2 n a u b v)
  = a * re_inner exact n z u + b * re_inner exact n z v.
Proof.
  induction n as [|k IH].
  - destruct z, u, v. unfold lin2, vadd, vscale, Cscale. simpl. unfold_cx. ring.
  - rewrite lin2_S. cbn [re_inner fst snd]. exact_arith.
    rewrite !IH. cbn [re_inner]. exact_arith. ring.
Qed.

Lemma re_inner_sym n (u v : qstate R n) :
  re_inner exact n u v = re_inner exact n v u.
Proof.
  induction n as [|k IH].
  - destruct u, v. simpl. unfold_cx. ring.
  - cbn [re_inner]. exact_arith. rewrite (IH (fst u)), (IH (snd u)). reflexivity.
Qed.

Lemma re_inner_lin2_l n (z : qstate R n) a u b v :
  re_inner exact n (lin2 n a u b v) z
  = a * re_inner exact n u z + b * re_inner exact n v z.
Proof.
  rewrite re_inner_sym, re_inner_lin2_r, !(re_inner_sym _ z). reflexivity.
Qed.

Lemma norm2_re_inner n (u : qstate R n) : norm2 exact n u = re_inner exact n u u.
Proof.
  induction n as [|k IH].
  - reflexivity.
  - cbn [norm2 re_inner]. exact_arith. rewrite !IH. reflexivity.
Qed.

Lemma norm2_lin2 n a (u : qstate R n) b v :
  norm2 exact n (lin2 n a u b v)
  = a * a * norm2 exact n u + 2 * a * b * re_inner exact n u v
    + b * b * norm2 exact n v.
Proof.
  rewrite !norm2_re_inner, re_inner_lin2_l, !re_inner_lin2_r.
  rewrite (re_inner_sym _ v u). ring.
Qed.

Lemma expZ_lin2 n w a (u : qstate R n) b v :
  expZ exact n w (lin2 n a u b v)
  = a * a * expZ exact n w u + 2 * a * b * expZ_bilinear n w u v
    + b * b * expZ exact n w v.
Proof.
  revert w u v. induction n as [|k IH]; intros w u v.
  - simpl. exact_arith. ring.
  - rewrite lin2_S. destruct w as [|w']; cbn [expZ expZ_bilinear fst snd];
      exact_arith.
    + rewrite !norm2_lin2. ring.
    + rewrite !IH. ring.
Qed.

Lemma expectation_lin2 n o w a (u : qstate R n) b v :
  expectation exact n o w (lin2 n a u b v)
  = a * a * expectation exact n o w u
    + 2 * a * b * expectation_bilinear n o w u v
    + b * b * expectation exact n o w v.
Proof.
  destruct o; cbn [expectation expectation_bilinear];
    try (rewrite apply1_linear, re_inner_lin2_l, !re_inner_lin2_r; field).
  apply expZ_lin2.
Qed.

(** ** The parameter-shift rule gives the derivative *)

Lemma half_angle_form (qu qv bl t : R) :
  cos (t / 2) * cos (t / 2) * qu + 2 * cos (t / 2) * sin (t / 2) * bl
  + sin (t / 2) * sin (t / 2) * qv
  = sinusoid ((qu + qv) / 2) ((qu - qv) / 2) bl t.
Proof.
  unfold sinusoid. rewrite (cos_double_half t).
  replace (sin t) with (2 * sin (t / 2) * cos (t / 2))
    by (rewrite <- sin_2a; f_equal; field).
  generalize (cos_sin_sqr (t / 2)).
  generalize (cos (t / 2)) (sin (t / 2)). intros c s H.
  transitivity (c * c * qu + 2 * c * s * bl + s * s * qv
                + (1 - (c * c + s * s)) * ((qu + qv) / 2)).
  - rewrite H. ring.
  - field.
Qed.

Lemma sinusoid_derivative (alpha beta gamma t : R) :
  derivable_pt_lim (sinusoid alpha beta gamma) t
    (- beta * sin t + gamma * cos t).
Proof.
  pose proof (derivable_pt_lim_scal _ beta _ _ (derivable_pt_lim_cos t)) as Dc.
  pose proof (derivable_pt_lim_scal _ gamma _ _ (derivable_pt_lim_sin t)) as Ds.
  pose proof (derivable_pt_lim_plus _ _ _ _ _
                (derivable_pt_lim_plus _ _ _ _ _
                   (derivable_pt_lim_const alpha t) Dc) Ds) as D.
  replace (- beta * sin t + gamma * cos t)
    with (0 + beta * - sin t + gamma * cos t) by ring.
  apply derivable_pt_lim_ext with (2 := D).
  intros x. unfold sinusoid, plus_fct, mult_real_fct, fct_cte. reflexivity.
Qed.

Lemma sinusoid_shift (alpha beta gamma t : R) :
  1 / 2 * (sinusoid alpha beta gamma (t + PI / 2)
           - sinusoid alpha beta gamma (t - PI / 2))
  = - beta * sin t + gamma * cos t.
Proof.
  unfold sinusoid.
  rewrite cos_plus, cos_minus, sin_plus, sin_minus, cos_PI2, sin_PI2. field.
Qed.

Lemma shift_at_rotation (ax : Axis) (t d : R) (w k : nat) (gs : list (Gate R)) :
  nth_error gs k = Some (rotation ax t w) ->
  shift_at exact k 0 d gs
  = firstn k gs ++ rotation ax (t + d) w :: skipn (S k) gs.
Proof.
  revert k. induction gs as [|g gs IH]; intros [|k] H; simpl in H;
    try discriminate.
  - injection H as ->. destruct ax; reflexivity.
  - cbn [shift_at firstn skipn app]. f_equal. apply IH, H.
Qed.

(** With everything but one rotation angle fixed, the measured value is a
    sinusoid in that angle. *)
Lemma measure_rotation_sinusoid n (before after : list (Gate R)) (ax : Axis)
    (w : nat) (o : expval.Observable) (ow : nat) :
  (w < n)%nat ->
  exists alpha beta gamma,
    forall t,
      measure exact {| bwires := n;
                       bgates := before ++ rotation ax t w :: after;
                       bobservable := o;
                       bobs_wire := ow |}
      = sinusoid alpha beta gamma t.
Proof.
  intros Hw.
  set (psi := run_from exact n before (basis0 exact n)).
  set (U := run_from exact n after psi).
  set (V := run_from exact n after (apply1 exact n (mat_generator ax) w psi)).
  exists ((expectation exact n o ow U + expectation exact n o ow V) / 2),
         ((expectation exact n o ow U - expectation exact n o ow V) / 2),
         (expectation_bilinear n o ow U V).
  intros t. unfold measure, final_state. cbn [bwires bgates bobservable bobs_wire].
  rewrite run_from_app. cbn [run_from]. fold psi.
  rewrite apply_gate_rotation, apply1_rotation by exact Hw.
  rewrite run_from_linear. fold U. fold V.
  rewrite expectation_lin2. apply half_angle_form.
Qed.

Lemma rotation_wire_ok (c : Circuit) (k i w : nat) (a : Axis) :
  wires_ok c = true ->
  nth_error (gates c) k = Some (rotation a i w) ->
  (w < num_wires c)%nat.
Proof.
  unfold wires_ok. intros Hw Hk.
  apply andb_prop in Hw as [Hg _].
  rewrite forallb_forall in Hg.
  specialize (Hg _ (nth_error_In _ _ Hk)).
  destruct a; apply Nat.ltb_lt; exact Hg.
Qed.

(** As a function of an input that feeds one rotation, [evaluate] is a
    sinusoid. *)
Lemma evaluate_sinusoid (c : Circuit) (values : list R) (i k w : nat) (a : Axis) :
  length values = num_params c ->
  wires_ok c = true ->
  (i < length values)%nat ->
  nth_error (gates c) k = Some (rotation a i w) ->
  occurrences 0 i (gates c) = [(k, 0%nat)] ->
  exists alpha beta gamma,
    forall t,
      evaluate exact c (set_nth i t values) = Ok (sinusoid alpha beta gamma t).
Proof.
  intros Hlen Hw Hi Hgate Hocc.
  set (G := map (gate_map (fun (_ : nat) q => nth q values 0)) (gates c)).
  assert (HG : nth_error G k = Some (rotation a (nth i values 0) w)).
  { unfold G. rewrite (map_nth_error _ _ _ Hgate). destruct a; reflexivity. }
  destruct (@measure_rotation_sinusoid (num_wires c) (firstn k G)
              (skipn (S k) G) a w (observable c) (obs_wire c)
              (@rotation_wire_ok c k i w a Hw Hgate))
    as (alpha & beta & gamma & Hsin).
  exists alpha, beta, gamma. intros t.
  unfold evaluate.
  rewrite bind_ok by (rewrite ?length_set_nth; assumption).
  cbn [rbind]. f_equal. rewrite <- Hsin. f_equal. f_equal.
  pose proof (@bind_gates_once _ exact values i (t - nth i values 0) Hi
                0 k 0 (gates c) Hocc) as Hshift.
  exact_arith.
  replace (nth i values 0 + (t - nth i values 0)) with t in Hshift by ring.
  rewrite Hshift. fold G.
  rewrite (@shift_at_rotation a _ (t - nth i values 0) w k G HG). f_equal. f_equal.
  f_equal. ring.
Qed.

(** The value the gradient operation returns for an input that feeds one
    rotation is the partial derivative of [evaluate] in that input. *)
Theorem parameter_shift_is_derivative :
  forall (c : Circuit) (values : list R) (i k w : nat) (a : Axis),
    length values = num_params c ->
    wires_ok c = true ->
    (i < length values)%nat ->
    nth_error (gates c) k = Some (rotation a i w) ->
    occurrences 0 i (gates c) = [(k, 0%nat)] ->
    exists f_plus f_minus,
      evaluate exact c (set_nth i (nth i values 0 + PI / 2) values) = Ok f_plus
      /\ evaluate exact c (set_nth i (nth i values 0 - PI / 2) values) = Ok f_minus
      /\ partial_at (evaluate exact c) values i (1 / 2 * (f_plus - f_minus)).
Proof.
  intros c values i k w a Hlen Hw Hi Hgate Hocc.
  destruct (@evaluate_sinusoid c values i k w a Hlen Hw Hi Hgate Hocc)
    as (alpha & beta & gamma & Hsin).
  do 2 eexists. split; [apply Hsin|]. split; [apply Hsin|].
  rewrite sinusoid_shift. unfold partial_at.
  apply derivable_pt_lim_ext with (f := sinusoid alpha beta gamma).
  - intros t. rewrite Hsin. reflexivity.
  - apply sinusoid_derivative.
Qed.

(** ** Quantum nodes as differentiable objectives *)

Lemma slot_feeds_one_rotation_spec (c : Circuit) (i : nat) :
  slot_feeds_one_rotation c i = true ->
  exists k w a,
    nth_error (gates c) k = Some (rotation a i w)
    /\ occurrences 0 i (gates c) = [(k, 0%nat)].
Proof.
  unfold slot_feeds_one_rotation.
  destruct (occurrences 0 i (gates c)) as [|[k [|j]] [|kj occ]];
    try discriminate.
  destruct (nth_error (gates c) k) as [g|] eqn:Hk; [|discriminate].
  destruct g; try discriminate; intros E; apply Nat.eqb_eq in E; subst.
  - exists k, wires, AxisX. split; [exact Hk | reflexivity].
  - exists k, wires, AxisY. split; [exact Hk | reflexivity].
  - exists k, wires, AxisZ. split; [exact Hk | reflexivity].
Qed.

Lemma evaluate_ok_inv (c : Circuit) (values : list R) (y : R) :
  evaluate exact c values = Ok y ->
  length values = num_params c /\ wires_ok c = true.
Proof.
  unfold evaluate, bind.
  destruct (length values =? num_params c) eqn:E; simpl; [|discriminate].
  destruct (wires_ok c); simpl; [|discriminate].
  intros _. split; [apply Nat.eqb_eq, E | reflexivity].
Qed.

(** A quantum node all of whose inputs feed one rotation each is
    differentiable: the gradient it returns holds the partial derivatives
    of its value. *)
Lemma qnode_differentiable (c : Circuit) :
  rotation_slots c = true -> differentiable (qnode exact c).
Proof.
  intros Hslots x y Hy. cbn [value grad qnode] in *.
  destruct (evaluate_ok_inv _ _ Hy) as [Hlen Hw].
  unfold gradient. rewrite bind_bound by assumption. cbn [rbind].
  rewrite map_map. cbn [snd].
  eexists. split; [reflexivity|].
  split; [rewrite length_map, length_seq; symmetry; exact Hlen|].
  intros i Hi.
  assert (Hin : In i (seq 0 (num_params c)))
    by (apply in_seq; lia).
  unfold rotation_slots in Hslots. rewrite forallb_forall in Hslots.
  destruct (slot_feeds_one_rotation_spec _ _ (Hslots _ Hin))
    as (k & w & a & Hgate & Hocc).
  rewrite (nth_indep _ 0 (shift_sum exact (bound c x)
                            (occurrences 0 (nth i (seq 0 (num_params c)) 0%nat)
                               (gates c))))
    by (rewrite length_map, length_seq; lia).
  rewrite (map_nth (fun i0 => shift_sum exact (bound c x)
                                (occurrences 0 i0 (gates c)))).
  rewrite seq_nth by lia. cbn [Nat.add].
  rewrite (@shift_sum_single c x i k w a Hi Hgate Hocc).
  destruct (@parameter_shift_is_derivative c x i k w a Hlen Hw Hi Hgate Hocc)
    as (fp & fm & Hp & Hm & Hd).
  rewrite evaluate_bound in Hp, Hm by (rewrite ?length_set_nth; assumption).
  injection Hp as <-. injection Hm as <-. exact Hd.
Qed.

(** The notebook's two-wire circuit and the generator-discriminator circuit
    of the GAN are such nodes. *)
Lemma notebook_qnodes_differentiable :
  differentiable (qnode exact circuit)
  /\ differentiable (qnode exact gen_disc_circuit).
Proof.
  split; apply qnode_differentiable; reflexivity.
Qed.

(** * More of the notebook *)

(** ** Gates are complex linear *)

Lemma clin2_S k a (p : qstate R (S k)) b (q : qstate R (S k)) :
  clin2 (S k) a p b q
  = (clin2 k a (fst p) b (fst q), clin2 k a (snd p) b (snd q)).
Proof. reflexivity. Qed.

(** A one-wire gate on the first wire, written with combinations. *)
Lemma zip2_mat_act (m : M2 R) n (u v : qstate R n) :
  zip2 n (mat_act exact m) u v
  = (clin2 n (m00 m) u (m01 m) v, clin2 n (m10 m) u (m11 m) v).
Proof.
  induction n as [|k IH].
  - reflexivity.
  - cbn [zip2]. rewrite !IH, !clin2_S. reflexivity.
Qed.

Lemma clin2_clin2 n (a b c d : Cx R) (u v u' v' : qstate R n) :
  clin2 n a (clin2 n c u d u') b (clin2 n c v d v')
  = clin2 n c (clin2 n a u b v) d (clin2 n a u' b v').
Proof.
  induction n as [|k IH].
  - destruct a, b, c, d, u, v, u', v'.
    unfold clin2, vadd, cscale. unfold_cx. f_equal; ring.
  - rewrite !clin2_S. cbn [fst snd]. rewrite !IH. reflexivity.
Qed.

Lemma apply1_clinear (m : M2 R) n w : clinear n (apply1 exact n m w).
Proof.
  revert w. induction n as [|k IH]; intros w a u b v.
  - reflexivity.
  - rewrite !clin2_S. destruct w as [|w']; cbn [apply1 fst snd].
    + rewrite !zip2_mat_act. cbn [fst snd].
      rewrite !(clin2_clin2 _ _ _ a b). reflexivity.
    + rewrite !IH. reflexivity.
Qed.

Lemma swap_bit_clinear n t : clinear n (swap_bit n t).
Proof.
  revert t. induction n as [|k IH]; intros t a u b v.
  - reflexivity.
  - rewrite !clin2_S. destruct t as [|t']; cbn [swap_bit fst snd].
    + reflexivity.
    + rewrite !IH. reflexivity.
Qed.

Lemma cswap_clinear n c a (u v : qstate R n) b (u' v' : qstate R n) :
  cswap n c (clin2 n a u b u') (clin2 n a v b v')
  = (clin2 n a (fst (cswap n c u v)) b (fst (cswap n c u' v')),
     clin2 n a (snd (cswap n c u v)) b (snd (cswap n c u' v'))).
Proof.
  revert c u v u' v'. induction n as [|k IH]; intros c u v u' v'.
  - reflexivity.
  - rewrite !clin2_S. destruct c as [|c']; cbn [cswap fst snd].
    + reflexivity.
    + rewrite !IH. reflexivity.
Qed.

Lemma cnot_clinear n c t : clinear n (cnot n c t).
Proof.
  revert c t. induction n as [|k IH]; intros c t a u b v.
  - reflexivity.
  - rewrite !clin2_S. destruct c as [|c'], t as [|t']; cbn [cnot fst snd].
    + reflexivity.
    + rewrite swap_bit_clinear. reflexivity.
    + rewrite cswap_clinear. reflexivity.
    + rewrite !IH. reflexivity.
Qed.

(** ** Gates on different wires commute *)

(** A gate on the first wire commutes with a linear map applied to both
    halves of the register. *)
Lemma zip2_halves (m : M2 R) n (G : qstate R n -> qstate R n)
    (u v : qstate R n) :
  clinear n G ->
  zip2 n (mat_act exact m) (G u) (G v)
  = (G (fst (zip2 n (mat_act exact m) u v)),
     G (snd (zip2 n (mat_act exact m) u v))).
Proof.
  intros HG. rewrite !zip2_mat_act. cbn [fst snd]. rewrite !HG. reflexivity.
Qed.

Lemma apply1_comm (m m' : M2 R) n w w' (psi : qstate R n) :
  w <> w' ->
  apply1 exact n m w (apply1 exact n m' w' psi)
  = apply1 exact n m' w' (apply1 exact n m w psi).
Proof.
  revert w w' psi. induction n as [|k IH]; intros w w' psi Hne.
  - reflexivity.
  - destruct w as [|w1], w' as [|w1']; cbn [apply1 fst snd].
    + contradiction.
    + apply zip2_halves, apply1_clinear.
    + symmetry. apply zip2_halves, apply1_clinear.
    + rewrite !(IH w1 w1') by lia. reflexivity.
Qed.

Lemma apply1_swap_bit_comm (m : M2 R) n w t (psi : qstate R n) :
  w <> t ->
  apply1 exact n m w (swap_bit n t psi) = swap_bit n t (apply1 exact n m w psi).
Proof.
  revert w t psi. induction n as [|k IH]; intros w t psi Hne.
  - reflexivity.
  - destruct w as [|w1], t as [|t1]; cbn [apply1 swap_bit fst snd].
    + contradiction.
    + apply zip2_halves, swap_bit_clinear.
    + reflexivity.
    + rewrite !(IH w1 t1) by lia. reflexivity.
Qed.

Lemma apply1_cswap_comm (m : M2 R) n w c (u v : qstate R n) :
  w <> c ->
  cswap n c (apply1 exact n m w u) (apply1 exact n m w v)
  = (apply1 exact n m w (fst (cswap n c u v)),
     apply1 exact n m w (snd (cswap n c u v))).
Proof.
  revert w c u v. induction n as [|k IH]; intros w c u v Hne.
  - reflexivity.
  - destruct w as [|w1], c as [|c1]; cbn [apply1 cswap fst snd].
    + contradiction.
    + rewrite !zip2_mat_act. cbn [fst snd].
      rewrite !cswap_clinear. reflexivity.
    + reflexivity.
    + rewrite !(IH w1 c1) by lia. reflexivity.
Qed.

Lemma apply1_cnot_comm (m : M2 R) n w c t (psi : qstate R n) :
  w <> c -> w <> t ->
  apply1 exact n m w (cnot n c t psi) = cnot n c t (apply1 exact n m w psi).
Proof.
  revert w c t psi. induction n as [|k IH]; intros w c t psi Hc Ht.
  - reflexivity.
  - destruct c as [|c1], t as [|t1].
    + reflexivity.
    + destruct w as [|w1]; [contradiction|]. cbn [apply1 cnot fst snd].
      rewrite apply1_swap_bit_comm by lia. reflexivity.
    + destruct w as [|w1]; [contradiction|]. cbn [apply1 cnot fst snd].
      rewrite apply1_cswap_comm by lia. reflexivity.
    + destruct w as [|w1]; cbn [apply1 cnot fst snd].
      * apply zip2_halves, cnot_clinear.
      * rewrite !(IH w1 c1 t1) by lia. reflexivity.
Qed.

Lemma apply1_gate_comm (m : M2 R) n w (g : Gate R) (psi : qstate R n) :
  gate_touches w g = false ->
  apply1 exact n m w (apply_gate exact n g psi)
  = apply_gate exact n g (apply1 exact n m w psi).
Proof.
  destruct g; cbn [gate_touches apply_gate]; intros H;
    try (apply Nat.eqb_neq in H;
         rewrite !(fun m' => @apply1_comm m m' n w wires) by lia;
         reflexivity).
  apply orb_false_elim in H as [Hc Ht].
  apply Nat.eqb_neq in Hc, Ht. apply apply1_cnot_comm; lia.
Qed.

Lemma apply1_run_comm (m : M2 R) n w (gs : list (Gate R)) (psi : qstate R n) :
  untouched w gs = true ->
  apply1 exact n m w (run_from exact n gs psi)
  = run_from exact n gs (apply1 exact n m w psi).
Proof.
  revert psi. induction gs as [|g gs IH]; intros psi H; cbn [run_from].
  - reflexivity.
  - cbn [untouched forallb] in H. apply andb_prop in H as [Hg Hgs].
    apply negb_true_iff in Hg.
    rewrite IH by exact Hgs. rewrite apply1_gate_comm by exact Hg. reflexivity.
Qed.

(** ** Pauli-Z on one wire does not see unitaries on another *)

Lemma zip2_expZ (f : Cx R -> Cx R -> Cx R * Cx R) :
  pair_isometry f ->
  forall n v (u u' : qstate R n),
    expZ exact n v (fst (zip2 n f u u')) + expZ exact n v (snd (zip2 n f u u'))
    = expZ exact n v u + expZ exact n v u'.
Proof.
  intros Hf n. induction n as [|k IH]; intros v u u'.
  - reflexivity.
  - destruct u as [u0 u1], u' as [v0 v1].
    destruct v as [|v1']; cbn [zip2 expZ fst snd]; exact_arith.
    + generalize (zip2_norm2 Hf k u0 v0) (zip2_norm2 Hf k u1 v1). lra.
    + generalize (IH v1' u0 v0) (IH v1' u1 v1). lra.
Qed.

Lemma apply1_expZ_other (m : M2 R) n w v (psi : qstate R n) :
  unitary2 m -> w <> v ->
  expZ exact n v (apply1 exact n m w psi) = expZ exact n v psi.
Proof.
  intros Hm. revert w v psi. induction n as [|k IH]; intros w v psi Hne.
  - reflexivity.
  - destruct psi as [u u'].
    destruct w as [|w1], v as [|v1]; cbn [apply1 expZ fst snd]; exact_arith.
    + contradiction.
    + apply zip2_expZ, mat_act_isometry, Hm.
    + rewrite !apply1_norm2 by exact Hm. reflexivity.
    + rewrite !(IH w1 v1) by lia. reflexivity.
Qed.

(** A one-wire gate on [w] that nothing on [w] follows does not change the
    Pauli-Z expectation on another wire [v]. *)
Lemma dead_gate n w v (g : Gate R) (gs : list (Gate R)) (psi : qstate R n) :
  gate_touches w g = true ->
  is_cnot g = false ->
  untouched w gs = true ->
  w <> v ->
  expZ exact n v (run_from exact n gs (apply_gate exact n g psi))
  = expZ exact n v (run_from exact n gs psi).
Proof.
  intros Hg Hc Hgs Hne.
  destruct g; cbn [gate_touches is_cnot] in Hg, Hc; try discriminate;
    apply Nat.eqb_eq in Hg; subst wires; cbn [apply_gate];
    repeat (rewrite <- apply1_run_comm by exact Hgs;
            rewrite apply1_expZ_other by (auto with unitary));
    reflexivity.
Qed.

Lemma drop_dead_untouched (w : nat) (gs : list (Gate R)) :
  cnot_free w gs = true -> untouched w (drop_dead w gs) = true.
Proof.
  induction gs as [|g gs IH]; cbn [cnot_free drop_dead forallb].
  - reflexivity.
  - intros H. apply andb_prop in H as [Hg Hgs].
    fold (cnot_free w gs) in Hgs. rewrite Hgs, andb_true_r.
    destruct (gate_touches w g) eqn:Ht, (is_cnot g) eqn:Hc;
      cbn [andb negb] in *; try discriminate.
    + apply IH, Hgs.
    + cbn [untouched forallb]. rewrite Ht. cbn [negb andb]. apply IH, Hgs.
    + cbn [untouched forallb]. rewrite Ht. cbn [negb andb]. apply IH, Hgs.
Qed.

(** Dropping the dead one-wire gates of wire [w] does not change the
    Pauli-Z expectation on another wire. *)
Lemma expZ_drop_dead n w v (gs : list (Gate R)) (psi : qstate R n) :
  w <> v ->
  expZ exact n v (run_from exact n gs psi)
  = expZ exact n v (run_from exact n (drop_dead w gs) psi).
Proof.
  intros Hne. revert psi. induction gs as [|g gs IH]; intros psi.
  - reflexivity.
  - cbn [drop_dead run_from].
    destruct (gate_touches w g && negb (is_cnot g) && cnot_free w gs) eqn:E.
    + apply andb_prop in E as [E Hfree]. apply andb_prop in E as [Ht Hc].
      apply negb_true_iff in Hc.
      rewrite IH.
      apply (@dead_gate n w v g (drop_dead w gs) psi Ht Hc
               (@drop_dead_untouched w gs Hfree) Hne).
    + cbn [run_from]. apply IH.
Qed.

Lemma measure_drop_dead (b : BoundCircuit R) (w : nat) :
  bobservable b = expval.PauliZ ->
  w <> bobs_wire b ->
  measure exact b = measure exact (with_gates b (drop_dead w (bgates b))).
Proof.
  intros Ho Hne. unfold measure, final_state, with_gates.
  cbn [bwires bgates bobservable bobs_wire]. rewrite Ho.
  cbn [expectation]. apply expZ_drop_dead, Hne.
Qed.

(** ** Pauli-Z does not see a phase gate, on any wire *)

Lemma mat_act_phase (m : M2 R) : diagonal_phase m -> pair_phase (mat_act exact m).
Proof.
  intros (H01 & H10 & H00 & H11) [x1 x2] [y1 y2].
  destruct m as [[a1 a2] [b1 b2] [c1 c2] [d1 d2]].
  cbn [m00 m01 m10 m11] in *. injection H01 as -> ->. injection H10 as -> ->.
  unfold_cx. cbn [m00 m01 m10 m11 fst snd]. split.
  - transitivity ((a1 * a1 + a2 * a2) * (x1 * x1 + x2 * x2)); [ring|].
    rewrite H00. ring.
  - transitivity ((d1 * d1 + d2 * d2) * (y1 * y1 + y2 * y2)); [ring|].
    rewrite H11. ring.
Qed.

Lemma zip2_phase (f : Cx R -> Cx R -> Cx R * Cx R) :
  pair_phase f ->
  forall n (u u' : qstate R n),
    norm2 exact n (fst (zip2 n f u u')) = norm2 exact n u
    /\ norm2 exact n (snd (zip2 n f u u')) = norm2 exact n u'.
Proof.
  intros Hf n. induction n as [|k IH]; intros u u'.
  - apply Hf.
  - destruct u as [u0 u1], u' as [v0 v1]. cbn [zip2 norm2 fst snd]. exact_arith.
    destruct (IH u0 v0) as [-> ->], (IH u1 v1) as [-> ->]. split; reflexivity.
Qed.

Lemma zip2_phase_expZ (f : Cx R -> Cx R -> Cx R * Cx R) :
  pair_phase f ->
  forall n v (u u' : qstate R n),
    expZ exact n v (fst (zip2 n f u u')) = expZ exact n v u
    /\ expZ exact n v (snd (zip2 n f u u')) = expZ exact n v u'.
Proof.
  intros Hf n. induction n as [|k IH]; intros v u u'.
  - split; reflexivity.
  - destruct u as [u0 u1], u' as [v0 v1].
    destruct v as [|v1']; cbn [zip2 expZ fst snd]; exact_arith.
    + destruct (zip2_phase Hf k u0 v0) as [-> ->],
               (zip2_phase Hf k u1 v1) as [-> ->]. split; reflexivity.
    + destruct (IH v1' u0 v0) as [-> ->], (IH v1' u1 v1) as [-> ->].
      split; reflexivity.
Qed.

Lemma apply1_phase_norm2 (m : M2 R) n w (psi : qstate R n) :
  diagonal_phase m ->
  norm2 exact n (apply1 exact n m w psi) = norm2 exact n psi.
Proof.
  intros Hm. revert w psi. induction n as [|k IH]; intros w psi.
  - reflexivity.
  - destruct psi as [u u']. destruct w as [|w1]; simpl; exact_arith.
    + destruct (zip2_phase (mat_act_phase Hm) k u u') as [E1 E2].
      f_equal; [exact E1 | exact E2].
    + rewrite !IH. reflexivity.
Qed.

Lemma apply1_phase_expZ (m : M2 R) n w v (psi : qstate R n) :
  diagonal_phase m ->
  expZ exact n v (apply1 exact n m w psi) = expZ exact n v psi.
Proof.
  intros Hm. revert w v psi. induction n as [|k IH]; intros w v psi.
  - reflexivity.
  - destruct psi as [u u'].
    destruct w as [|w1], v as [|v1]; simpl; exact_arith.
    + destruct (zip2_phase (mat_act_phase Hm) k u u') as [E1 E2].
      unfold Rminus. f_equal; [exact E1 | f_equal; exact E2].
    + destruct (zip2_phase_expZ (mat_act_phase Hm) k v1 u u') as [E1 E2].
      f_equal; [exact E1 | exact E2].
    + rewrite !apply1_phase_norm2 by exact Hm. reflexivity.
    + rewrite !IH. reflexivity.
Qed.

Lemma RZ_diagonal_phase (t : R) : diagonal_phase (mat_RZ exact t).
Proof.
  unfold diagonal_phase, mat_RZ. unfold_cx. cbn [m00 m01 m10 m11 fst snd].
  generalize (cos_sin_sqr (t / 2)). intros H. repeat split; nra.
Qed.

Lemma measure_trailing_RZ (b : BoundCircuit R) (gs : list (Gate R)) (t : R)
    (w : nat) :
  bobservable b = expval.PauliZ ->
  measure exact (with_gates b (gs ++ [RZ t w])) = measure exact (with_gates b gs).
Proof.
  intros Ho. unfold measure, final_state, with_gates.
  cbn [bwires bgates bobservable bobs_wire]. rewrite Ho. cbn [expectation].
  rewrite run_from_app. cbn [run_from apply_gate].
  apply apply1_phase_expZ, RZ_diagonal_phase.
Qed.

(** ** What the GAN circuits do not depend on *)


Lemma length_nine (T : Type) (l : list T) :
  length l = 9%nat ->
  exists x0 x1 x2 x3 x4 x5 x6 x7 x8, l = [x0; x1; x2; x3; x4; x5; x6; x7; x8].
Proof.
  intros H.
  do 9 (destruct l as [|? l]; [discriminate|]).
  destruct l; [|discriminate]. repeat eexists.
Qed.

(** The value of the real-data circuit in terms of the gates that matter:
    those of the discriminator on its output wire, without the last RZ. *)
Lemma real_disc_reduced (a b c w0 w1 w2 w3 w4 w5 w6 w7 w8 : R) :
  evaluate exact real_disc_circuit [a; b; c; w0; w1; w2; w3; w4; w5; w6; w7; w8]
  = Ok (measure exact
          {| bwires := 3;
             bgates := [RX w1 2; RY w3 2; RZ w5 2; CNOT 1 2; RX w6 2; RY w7 2];
             bobservable := expval.PauliZ;
             bobs_wire := 2 |}).
Proof.
  rewrite evaluate_bound by reflexivity. f_equal.
  rewrite (@measure_drop_dead _ 0) by (cbn; auto).
  unfold bound, with_gates, real_disc_circuit, real, discriminator.
  cbn [bwires bgates bobservable bobs_wire num_wires gates observable obs_wire
       app map gate_map nth Nat.add drop_dead gate_touches is_cnot cnot_free
       forallb Nat.eqb andb orb negb].
  apply (@measure_trailing_RZ
           {| bwires := gan_dev_wires; bgates := [];
              bobservable := expval.PauliZ; bobs_wire := 2 |}
           [RX w1 2; RY w3 2; RZ w5 2; CNOT 1 2; RX w6 2; RY w7 2] w8 2).
  reflexivity.
Qed.

(** The same for the generator circuit: the generator's gates up to its
    controlled-NOT, then the discriminator's gates on its output wire. *)
Lemma gen_disc_reduced (g0 g1 g2 g3 g4 g5 g6 g7 g8 w0 w1 w2 w3 w4 w5 w6 w7 w8 : R) :
  evaluate exact gen_disc_circuit
    [g0; g1; g2; g3; g4; g5; g6; g7; g8; w0; w1; w2; w3; w4; w5; w6; w7; w8]
  = Ok (measure exact
          {| bwires := 3;
             bgates := [RX g0 0; RX g1 1; RY g2 0; RY g3 1; RZ g4 0; RZ g5 1;
                        CNOT 0 1;
                        RX w1 2; RY w3 2; RZ w5 2; CNOT 1 2; RX w6 2; RY w7 2];
             bobservable := expval.PauliZ;
             bobs_wire := 2 |}).
Proof.
  rewrite evaluate_bound by reflexivity. f_equal.
  rewrite (@measure_drop_dead _ 0) by (cbn; auto).
  unfold bound, with_gates, gen_disc_circuit, generator, discriminator.
  cbn [bwires bgates bobservable bobs_wire num_wires gates observable obs_wire
       app map gate_map nth Nat.add drop_dead gate_touches is_cnot cnot_free
       forallb Nat.eqb andb orb negb].
  apply (@measure_trailing_RZ
           {| bwires := gan_dev_wires; bgates := [];
              bobservable := expval.PauliZ; bobs_wire := 2 |}
           [RX g0 0; RX g1 1; RY g2 0; RY g3 1; RZ g4 0; RZ g5 1;
            CNOT 0 1;
            RX w1 2; RY w3 2; RZ w5 2; CNOT 1 2; RX w6 2; RY w7 2] w8 2).
  reflexivity.
Qed.






(** X10.  For weight vectors of nine entries, [prob_fake_true] does not depend on
    the generator weights 6, 7 and 8, the rotations of wire 0 after the
    generator's controlled-NOT, nor on the discriminator weights 0, 2, 4
    and 8. *)
Theorem prob_fake_true_dead_weights :
  forall (gen_weights disc_weights : list R) (x : R),
    length gen_weights = 9%nat ->
    length disc_weights = 9%nat ->
    (prob_fake_true (set_nth 6 x gen_weights) disc_weights
       = prob_fake_true gen_weights disc_weights
     /\ prob_fake_true (set_nth 7 x gen_weights) disc_weights
        = prob_fake_true gen_weights disc_weights
     /\ prob_fake_true (set_nth 8 x gen_weights) disc_weights
        = prob_fake_true gen_weights disc_weights)
    /\ (prob_fake_true gen_weights (set_nth 0 x disc_weights)
          = prob_fake_true gen_weights disc_weights
        /\ prob_fake_true gen_weights (set_nth 2 x disc_weights)
           = prob_fake_true gen_weights disc_weights
        /\ prob_fake_true gen_weights (set_nth 4 x disc_weights)
           = prob_fake_true gen_weights disc_weights
        /\ prob_fake_true gen_weights (set_nth 8 x disc_weights)
           = prob_fake_true gen_weights disc_weights).
Proof.
  intros gw dw x Hg Hd.
  destruct (length_nine _ Hg)
    as (g0 & g1 & g2 & g3 & g4 & g5 & g6 & g7 & g8 & ->).
  destruct (length_nine _ Hd)
    as (w0 & w1 & w2 & w3 & w4 & w5 & w6 & w7 & w8 & ->).
  unfold prob_fake_true. cbn [set_nth app].
  rewrite !gen_disc_reduced. repeat split; reflexivity.
Qed.

Lemma prob_fake_true_dead_weights_witness :
  prob_fake_true (set_nth 6 1 (repeat 0 9)) (repeat 0 9)
  = prob_fake_true (repeat 0 9) (repeat 0 9).
Proof.
  exact (proj1 (proj1 (@prob_fake_true_dead_weights
                         (repeat 0 9) (repeat 0 9) 1 eq_refl eq_refl))).
Defined.

(** ** Weights that training never moves *)

Lemma qnode_partials_bound (c : Circuit) (values : list R) (slots : list nat) :
  length values = num_params c ->
  wires_ok c = true ->
  qnode_partials c values slots
  = Ok (map (fun s => shift_sum exact (bound c values)
                        (occurrences 0 s (gates c))) slots).
Proof.
  intros Hlen Hw. unfold qnode_partials, gradient.
  rewrite bind_bound by assumption. cbn [rbind]. rewrite map_map. reflexivity.
Qed.

(** A slot whose value the node does not depend on has derivative 0. *)
Lemma shift_sum_dead (c : Circuit) (values : list R) (s : nat) :
  length values = num_params c ->
  wires_ok c = true ->
  (s < length values)%nat ->
  slot_feeds_one_rotation c s = true ->
  (forall x y, evaluate exact c (set_nth s x values)
               = evaluate exact c (set_nth s y values)) ->
  shift_sum exact (bound c values) (occurrences 0 s (gates c)) = 0.
Proof.
  intros Hlen Hw Hs Hslot Hdead.
  destruct (slot_feeds_one_rotation_spec _ _ Hslot) as (k & w & a & Hgate & Hocc).
  rewrite (@shift_sum_single c values s k w a Hs Hgate Hocc).
  specialize (Hdead (nth s values 0 + PI / 2) (nth s values 0 - PI / 2)).
  rewrite !evaluate_bound in Hdead by (rewrite ?length_set_nth; assumption).
  injection Hdead as ->. ring.
Qed.

Ltac dead_slot :=
  apply shift_sum_dead;
  [ reflexivity | reflexivity | cbn; lia | reflexivity
  | intros; cbn [set_nth];
    rewrite ?gen_disc_reduced, ?real_disc_reduced; reflexivity ].

Lemma disc_step_dead_weights (gen_weights disc_weights : list R) :
  length gen_weights = 9%nat ->
  length disc_weights = 9%nat ->
  exists disc_weights',
    step exact opt (disc_objective gen_weights) disc_weights = Ok disc_weights'
    /\ length disc_weights' = 9%nat
    /\ nth 0 disc_weights' 0 = nth 0 disc_weights 0
    /\ nth 2 disc_weights' 0 = nth 2 disc_weights 0
    /\ nth 4 disc_weights' 0 = nth 4 disc_weights 0
    /\ nth 8 disc_weights' 0 = nth 8 disc_weights 0.
Proof.
  intros Hg Hd.
  destruct (length_nine _ Hg)
    as (g0 & g1 & g2 & g3 & g4 & g5 & g6 & g7 & g8 & ->).
  destruct (length_nine _ Hd)
    as (w0 & w1 & w2 & w3 & w4 & w5 & w6 & w7 & w8 & ->).
  unfold step. cbn [grad disc_objective]. unfold disc_cost_grad.
  rewrite !qnode_partials_bound by reflexivity.
  cbn [rbind seq map zip_with apply_grad app].
  eexists. split; [reflexivity|]. split; [reflexivity|].
  cbn [nth stepsize opt]. exact_arith.
  repeat split.
  - replace (shift_sum exact _ (occurrences 0 9 _)) with 0
      by (symmetry; dead_slot).
    replace (shift_sum exact _ (occurrences 0 3 _)) with 0
      by (symmetry; dead_slot).
    field.
  - replace (shift_sum exact _ (occurrences 0 11 _)) with 0
      by (symmetry; dead_slot).
    replace (shift_sum exact _ (occurrences 0 5 _)) with 0
      by (symmetry; dead_slot).
    field.
  - replace (shift_sum exact _ (occurrences 0 13 _)) with 0
      by (symmetry; dead_slot).
    replace (shift_sum exact _ (occurrences 0 7 _)) with 0
      by (symmetry; dead_slot).
    field.
  - replace (shift_sum exact _ (occurrences 0 17 _)) with 0
      by (symmetry; dead_slot).
    replace (shift_sum exact _ (occurrences 0 11 _)) with 0
      by (symmetry; dead_slot).
    field.
Qed.

Lemma gen_step_dead_weights (disc_weights gen_weights : list R) :
  length gen_weights = 9%nat ->
  length disc_weights = 9%nat ->
  exists gen_weights',
    step exact opt (gen_objective disc_weights) gen_weights = Ok gen_weights'
    /\ length gen_weights' = 9%nat
    /\ nth 6 gen_weights' 0 = nth 6 gen_weights 0
    /\ nth 7 gen_weights' 0 = nth 7 gen_weights 0
    /\ nth 8 gen_weights' 0 = nth 8 gen_weights 0.
Proof.
  intros Hg Hd.
  destruct (length_nine _ Hg)
    as (g0 & g1 & g2 & g3 & g4 & g5 & g6 & g7 & g8 & ->).
  destruct (length_nine _ Hd)
    as (w0 & w1 & w2 & w3 & w4 & w5 & w6 & w7 & w8 & ->).
  unfold step. cbn [grad gen_objective]. unfold gen_cost_grad.
  rewrite !qnode_partials_bound by reflexivity.
  cbn [rbind seq map apply_grad app].
  eexists. split; [reflexivity|]. split; [reflexivity|].
  cbn [nth stepsize opt]. exact_arith.
  repeat split.
  - replace (shift_sum exact _ (occurrences 0 6 _)) with 0
      by (symmetry; dead_slot).
    field.
  - replace (shift_sum exact _ (occurrences 0 7 _)) with 0
      by (symmetry; dead_slot).
    field.
  - replace (shift_sum exact _ (occurrences 0 8 _)) with 0
      by (symmetry; dead_slot).
    field.
Qed.

(** X13.  Cell 38.  However many steps the discriminator is trained, with the
    generator weights fixed, its weights 0, 2, 4 and 8 keep their initial
    values: [disc_cost] does not depend on them, so their gradient entries
    are zero. *)
Theorem disc_training_dead_weights :
  forall (n : nat) (gen_weights disc_weights : list R),
    length gen_weights = 9%nat ->
    length disc_weights = 9%nat ->
    exists disc_weights',
      train n opt (disc_objective gen_weights) disc_weights = Ok disc_weights'
      /\ length disc_weights' = 9%nat
      /\ nth 0 disc_weights' 0 = nth 0 disc_weights 0
      /\ nth 2 disc_weights' 0 = nth 2 disc_weights 0
      /\ nth 4 disc_weights' 0 = nth 4 disc_weights 0
      /\ nth 8 disc_weights' 0 = nth 8 disc_weights 0.
Proof.
  induction n as [|n IH]; intros gw dw Hg Hd.
  - exists dw. repeat split; auto.
  - destruct (@disc_step_dead_weights gw dw Hg Hd)
      as (dw1 & Hstep & Hlen & E0 & E2 & E4 & E8).
    destruct (IH gw dw1 Hg Hlen) as (dw' & Htrain & Hlen' & F0 & F2 & F4 & F8).
    exists dw'. cbn [train]. rewrite Hstep. cbn [rbind].
    repeat split; auto; congruence.
Qed.

Lemma disc_training_dead_weights_witness :
  exists disc_weights',
    train 50 opt (disc_objective (repeat 0 9)) (repeat 1 9) = Ok disc_weights'
    /\ length disc_weights' = 9%nat
    /\ nth 0 disc_weights' 0 = nth 0 (repeat 1 9) 0
    /\ nth 2 disc_weights' 0 = nth 2 (repeat 1 9) 0
    /\ nth 4 disc_weights' 0 = nth 4 (repeat 1 9) 0
    /\ nth 8 disc_weights' 0 = nth 8 (repeat 1 9) 0.
Proof.
  apply (@disc_training_dead_weights 50 (repeat 0 9) (repeat 1 9));
    reflexivity.
Defined.

(** X14.  Cell 44.  However many steps the generator is trained, with the
    discriminator weights fixed, its weights 6, 7 and 8 keep their initial
    values. *)
Theorem gen_training_dead_weights :
  forall (n : nat) (disc_weights gen_weights : list R),
    length gen_weights = 9%nat ->
    length disc_weights = 9%nat ->
    exists gen_weights',
      train n opt (gen_objective disc_weights) gen_weights = Ok gen_weights'
      /\ length gen_weights' = 9%nat
      /\ nth 6 gen_weights' 0 = nth 6 gen_weights 0
      /\ nth 7 gen_weights' 0 = nth 7 gen_weights 0
      /\ nth 8 gen_weights' 0 = nth 8 gen_weights 0.
Proof.
  induction n as [|n IH]; intros dw gw Hg Hd.
  - exists gw. repeat split; auto.
  - destruct (@gen_step_dead_weights dw gw Hg Hd) as (gw1 & Hstep & Hlen & E6 & E7 & E8).
    destruct (IH dw gw1 Hlen Hd) as (gw' & Htrain & Hlen' & F6 & F7 & F8).
    exists gw'. cbn [train]. rewrite Hstep. cbn [rbind].
    repeat split; auto; congruence.
Qed.

Lemma gen_training_dead_weights_witness :
  exists gen_weights',
    train 200 opt (gen_objective (repeat 1 9)) (repeat 0 9) = Ok gen_weights'
    /\ length gen_weights' = 9%nat
    /\ nth 6 gen_weights' 0 = nth 6 (repeat 0 9) 0
    /\ nth 7 gen_weights' 0 = nth 7 (repeat 0 9) 0
    /\ nth 8 gen_weights' 0 = nth 8 (repeat 0 9) 0.
Proof.
  apply (@gen_training_dead_weights 200 (repeat 1 9) (repeat 0 9));
    reflexivity.
Defined.

(** ** The objectives of the GAN are differentiable *)











(** ** A gradient step does not go up *)

Lemma abs_le_inv (x b : R) : Rabs x <= b -> - b <= x <= b.
Proof.
  unfold Rabs. destruct (Rcase_abs x); lra.
Qed.

Section Descent.

Variables (f f' f'' : R -> R) (L step_size : R).
Hypothesis Hf : forall x, derivable_pt_lim f x (f' x).
Hypothesis Hf' : forall x, derivable_pt_lim f' x (f'' x).
Hypothesis Hbound : forall x, Rabs (f'' x) <= L.
Hypothesis Hstep : 0 <= step_size.
Hypothesis Hsmall : step_size * L <= 1.

Lemma descent_left (x : R) :
  0 < step_size * f' x -> f (x - step_size * f' x) <= f x.
Proof.
  intros Hpos.
  set (d := f' x) in *. set (x' := x - step_size * d).
  assert (Hd : 0 < d) by nra.
  assert (Hlt : x' < x) by (unfold x'; lra).
  destruct (MVT_cor2 f f' x' x Hlt (fun c _ => Hf c)) as (c & Ec & Hc).
  destruct (MVT_cor2 f' f'' c x (proj2 Hc) (fun c2 _ => Hf' c2))
    as (c2 & Ec2 & Hc2).
  fold d in Ec2.
  pose proof (Hbound c2) as Hb. apply abs_le_inv in Hb.
  assert (Hgap : 0 < x - c <= step_size * d) by (unfold x' in Hc; lra).
  assert (HL : 0 <= L) by (pose proof (Rabs_pos (f'' c2)); pose proof (Hbound c2); lra).
  assert (Hc' : 0 <= f' c).
  { assert (f'' c2 * (x - c) <= L * (step_size * d)) by nra.
    assert (L * (step_size * d) <= d) by nra. lra. }
  assert (0 <= f' c * (x - x')) by (apply Rmult_le_pos; lra).
  lra.
Qed.

Lemma descent_right (x : R) :
  step_size * f' x < 0 -> f (x - step_size * f' x) <= f x.
Proof.
  intros Hneg.
  set (d := f' x) in *. set (x' := x - step_size * d).
  assert (Hd : d < 0) by nra.
  assert (Hlt : x < x') by (unfold x'; lra).
  destruct (MVT_cor2 f f' x x' Hlt (fun c _ => Hf c)) as (c & Ec & Hc).
  destruct (MVT_cor2 f' f'' x c (proj1 Hc) (fun c2 _ => Hf' c2))
    as (c2 & Ec2 & Hc2).
  fold d in Ec2.
  pose proof (Hbound c2) as Hb. apply abs_le_inv in Hb.
  assert (Hgap : 0 < c - x <= - (step_size * d)) by (unfold x' in Hc; lra).
  assert (HL : 0 <= L) by (pose proof (Rabs_pos (f'' c2)); pose proof (Hbound c2); lra).
  assert (Hc' : f' c <= 0).
  { assert (f'' c2 * (c - x) <= L * - (step_size * d)) by nra.
    assert (L * - (step_size * d) <= - d) by nra. lra. }
  assert (f' c * (x' - x) <= 0).
  { assert (0 <= - f' c * (x' - x)) by (apply Rmult_le_pos; lra). lra. }
  lra.
Qed.

(** For a function whose second derivative is bounded by [L], a gradient
    step of size at most 1/L does not increase the value. *)
Lemma descent (x : R) : f (x - step_size * f' x) <= f x.
Proof.
  destruct (Rtotal_order (step_size * f' x) 0) as [H | [H | H]].
  - apply descent_right, H.
  - rewrite H. replace (x - 0) with x by ring. lra.
  - apply descent_left, H.
Qed.

End Descent.

(** ** The cost of cell 19 and its training loop *)

Lemma cost_slope_derivative (x : R) :
  derivable_pt_lim (fun t => 2 * (cos t - target) * - sin t) x
    (2 * sin x * sin x - 2 * (cos x - target) * cos x).
Proof.
  pose proof (derivable_pt_lim_minus _ _ _ _ _
                (derivable_pt_lim_cos x)
                (derivable_pt_lim_const target x)) as D1.
  pose proof (derivable_pt_lim_opp _ _ _ (derivable_pt_lim_sin x)) as D2.
  pose proof (derivable_pt_lim_scal _ 2 _ _
                (derivable_pt_lim_mult _ _ _ _ _ D1 D2)) as D.
  replace (2 * sin x * sin x - 2 * (cos x - target) * cos x)
    with (2 * ((- sin x - 0) * (- sin)%F x
               + (cos - fct_cte target)%F x * - cos x))
    by (unfold opp_fct, minus_fct, fct_cte; ring).
  apply derivable_pt_lim_ext with (2 := D).
  intros t. unfold mult_real_fct, mult_fct, minus_fct, opp_fct, fct_cte. ring.
Qed.

Lemma cost_curvature_bound (x : R) :
  Rabs (2 * sin x * sin x - 2 * (cos x - target) * cos x) <= 10.
Proof.
  pose proof (COS_bound x). pose proof (SIN_bound x).
  unfold target. apply Rabs_le. split; nra.
Qed.

Lemma cost_curve_descent (w0 c : R) :
  (cos (w0 - eta * (2 * (cos w0 - target) * - sin w0)) - target) ^ 2 + c
  <= (cos w0 - target) ^ 2 + c.
Proof.
  apply (@descent (fun x => (cos x - target) ^ 2 + c)
           (fun x => 2 * (cos x - target) * - sin x)
           (fun x => 2 * sin x * sin x - 2 * (cos x - target) * cos x)
           10 eta).
  - intros x. apply square_shifted_cos_derivative.
  - apply cost_slope_derivative.
  - apply cost_curvature_bound.
  - unfold eta. lra.
  - unfold eta. lra.
Qed.

(** X3.  Cell 19.  With at least three weights, [cost] is the squared distance of
    cos(weights[0]) from the target plus the square of weights[2]: it is
    never negative, it does not depend on weights[1] nor on anything after
    weights[2], and it is zero exactly when cos(weights[0]) is the target
    and weights[2] is zero. *)
Theorem cost_closed_form :
  forall (w0 w1 w2 : R) (rest : list R),
    cost (w0 :: w1 :: w2 :: rest) = Ok ((cos w0 - target) ^ 2 + w2 ^ 2)
    /\ 0 <= (cos w0 - target) ^ 2 + w2 ^ 2
    /\ (forall w1' rest',
          cost (w0 :: w1' :: w2 :: rest') = cost (w0 :: w1 :: w2 :: rest))
    /\ ((cos w0 - target) ^ 2 + w2 ^ 2 = 0 <-> cos w0 = target /\ w2 = 0).
Proof.
  intros w0 w1 w2 rest.
  pose proof (pow2_ge_0 (cos w0 - target)) as A.
  pose proof (pow2_ge_0 w2) as B.
  split; [apply cost_value|]. split; [lra|].
  split; [intros; rewrite !cost_value; reflexivity|].
  split.
  - intros H. simpl in *. split; nra.
  - intros [-> ->]. ring.
Qed.

(** X4.  Cell 19.  [cost] returns a value exactly when it is given at least three
    weights; with fewer, indexing the weights fails with IndexError. *)
Theorem cost_needs_three_weights :
  forall weights : list R,
    ((exists y, cost weights = Ok y) <-> (3 <= length weights)%nat)
    /\ ((length weights < 3)%nat -> cost weights = Err IndexError).
Proof.
  intros [|w0 [|w1 [|w2 rest]]].
  - split; [split|]; [intros [y H]; discriminate | cbn; lia | reflexivity].
  - split; [split|]; [intros [y H]; discriminate | cbn; lia | reflexivity].
  - assert (E : cost [w0; w1] = Err IndexError).
    { unfold cost, index. cbn [nth_error rbind].
      rewrite circuit_evaluate. reflexivity. }
    split; [split|]; [intros [y H]; rewrite E in H; discriminate
                     | cbn; lia | intros _; exact E].
  - split; [split|].
    + intros _. cbn. lia.
    + intros _. eexists. apply cost_value.
    + cbn. lia.
Qed.

Lemma cost_needs_three_weights_witness :
  (length [1; 2] < 3)%nat /\ cost [1; 2] = Err IndexError.
Proof.
  assert (H : (length [1; 2] < 3)%nat) by (cbn; lia).
  split; [exact H|].
  exact (proj2 (cost_needs_three_weights [1; 2]) H).
Defined.

(** X5.  Cell 21.  The distance of the circuit's value from the target is at most
    the square root of the cost: once the cost is at most e^2, the circuit
    at the first two weights is within e of the target. *)
Theorem small_cost_near_target :
  forall (weights : list R) (y e : R),
    cost weights = Ok y ->
    0 <= e ->
    y <= e ^ 2 ->
    exists v,
      evaluate exact circuit [nth 0 weights 0; nth 1 weights 0] = Ok v
      /\ Rabs (v - target) <= e.
Proof.
  intros weights y e Hy He Hle.
  destruct (cost_value_inv _ Hy) as (w0 & w1 & w2 & rest & ->).
  rewrite cost_value in Hy. injection Hy as <-.
  exists (cos w0). cbn [nth]. split; [apply circuit_evaluate|].
  pose proof (pow2_ge_0 w2) as B.
  assert (H : (cos w0 - target)² <= e²) by (unfold Rsqr; simpl in *; lra).
  apply Rsqr_le_abs_0 in H. rewrite (Rabs_right e) in H by lra. exact H.
Qed.

Lemma small_cost_near_target_witness :
  exists v,
    evaluate exact circuit [nth 0 [0; 0; 0] 0; nth 1 [0; 0; 0] 0] = Ok v
    /\ Rabs (v - target) <= 1.
Proof.
  apply (@small_cost_near_target [0; 0; 0] ((cos 0 - target) ^ 2 + 0 ^ 2) 1).
  - apply cost_value.
  - lra.
  - rewrite cos_0. unfold target. lra.
Defined.

Lemma train_snoc (n : nat) (o : GradientDescentOptimizer R)
    (objective : Objective R) (weights : list R) :
  train (S n) o objective weights
  = (w <- train n o objective weights ;; step exact o objective w).
Proof.
  revert weights. induction n as [|n IH]; intros weights.
  - cbn [train rbind]. destruct (step exact o objective weights); reflexivity.
  - cbn [train] in *. destruct (step exact o objective weights) as [w|e];
      cbn [rbind]; [apply IH | reflexivity].
Qed.

(** X6.  Cell 20.  Through any number of steps on [cost] from three weights, the
    second weight keeps its value and the third is multiplied by 4/5 at
    every step. *)
Theorem cost_training_weights :
  forall (n : nat) (w0 w1 w2 : R),
    exists w0',
      train n opt cost_objective [w0; w1; w2]
      = Ok [w0'; w1; (4 / 5) ^ n * w2].
Proof.
  induction n as [|n IH]; intros w0 w1 w2.
  - exists w0. cbn [train pow]. rewrite Rmult_1_l. reflexivity.
  - cbn [train]. rewrite cost_step. cbn [rbind].
    replace (w1 - eta * 0) with w1 by ring.
    replace (w2 - eta * (2 * w2)) with (4 / 5 * w2) by (unfold eta; field).
    destruct (IH (w0 - eta * (2 * (cos w0 - target) * - sin w0))
                 w1 (4 / 5 * w2)) as (w0' & H).
    exists w0'. rewrite H.
    replace ((4 / 5) ^ n * (4 / 5 * w2)) with ((4 / 5) ^ S n * w2)
      by (simpl; ring).
    reflexivity.
Qed.

Lemma train_cost_three (n : nat) (w0 w1 w2 : R) :
  exists w0' w2', train n opt cost_objective [w0; w1; w2] = Ok [w0'; w1; w2'].
Proof.
  revert w0 w2. induction n as [|n IH]; intros w0 w2.
  - exists w0, w2. reflexivity.
  - cbn [train]. rewrite cost_step. cbn [rbind].
    replace (w1 - eta * 0) with w1 by ring. apply IH.
Qed.

(** Cell 20.  One step on [cost] from three weights returns three weights
    whose cost is not larger. *)
Lemma cost_step_descends (w0 w1 w2 : R) :
  exists w0' w2' y y',
    step exact opt cost_objective [w0; w1; w2] = Ok [w0'; w1; w2']
    /\ cost [w0; w1; w2] = Ok y
    /\ cost [w0'; w1; w2'] = Ok y'
    /\ y' <= y.
Proof.
  do 4 eexists. rewrite cost_step.
  replace (w1 - eta * 0) with w1 by ring.
  split; [reflexivity|]. rewrite !cost_value. split; [reflexivity|].
  split; [reflexivity|].
  pose proof (cost_curve_descent w0 0) as D.
  assert ((w2 - eta * (2 * w2)) ^ 2 <= w2 ^ 2) by (unfold eta; simpl; nra).
  lra.
Qed.

(** X7.  Cell 20.  In exact arithmetic the cost never goes up along the training
    loop, from any three initial weights: the cost after n + 1 steps is at
    most the cost after n steps. *)
Theorem cost_training_monotone :
  forall (n : nat) (w0 w1 w2 : R),
    exists wn wn' y y',
      train n opt cost_objective [w0; w1; w2] = Ok wn
      /\ train (S n) opt cost_objective [w0; w1; w2] = Ok wn'
      /\ cost wn = Ok y
      /\ cost wn' = Ok y'
      /\ y' <= y.
Proof.
  intros n w0 w1 w2.
  destruct (train_cost_three n w0 w1 w2) as (a & c & Hn).
  destruct (cost_step_descends a w1 c)
    as (a' & c' & y & y' & Hstep & Hy & Hy' & Hle).
  exists [a; w1; c], [a'; w1; c'], y, y'.
  split; [exact Hn|]. split; [|auto].
  rewrite train_snoc, Hn. cbn [rbind]. exact Hstep.
Qed.

(** ** One step on the circuit itself, cells 15 and 16 *)

Lemma cos_descent (a : R) : cos (a - eta * - sin a) <= cos a.
Proof.
  apply (@descent cos (fun x => - sin x) (fun x => - cos x) 1 eta).
  - apply derivable_pt_lim_cos.
  - intros x. apply (derivable_pt_lim_opp _ _ _ (derivable_pt_lim_sin x)).
  - intros x. rewrite Rabs_Ropp. apply Rabs_le. pose proof (COS_bound x). lra.
  - unfold eta. lra.
  - unfold eta. lra.
Qed.

(** X2.  Cell 15.  One optimizer step on [circuit] from (theta1, theta2) moves
    theta1 to theta1 + eta * sin(theta1) and leaves theta2 where it is; the
    value of the circuit at the new point is cos of the new theta1 and is
    not larger than before. *)
Theorem circuit_step_closed_form :
  forall a b : R,
    step exact opt (qnode exact circuit) [a; b] = Ok [a + eta * sin a; b]
    /\ evaluate exact circuit [a + eta * sin a; b] = Ok (cos (a + eta * sin a))
    /\ cos (a + eta * sin a) <= cos a.
Proof.
  intros a b. split; [|split].
  - unfold step. rewrite circuit_qnode_grad. cbn [rbind apply_grad stepsize opt].
    exact_arith. f_equal. f_equal; [ring | f_equal; ring].
  - apply circuit_evaluate.
  - replace (a + eta * sin a) with (a - eta * - sin a) by ring.
    apply cos_descent.
Qed.

(** ** The two costs of the GAN, cell 33 *)

(** X11.  [gen_cost] is minus [prob_fake_true], so it lies in [-1, 0], and
    [disc_cost] is minus [gen_cost] minus [prob_real_true]. *)
Theorem gan_costs_related :
  forall gen_weights disc_weights : list R,
    (forall y, gen_cost disc_weights gen_weights = Ok y -> -1 <= y <= 0)
    /\ (forall d, disc_cost gen_weights disc_weights = Ok d ->
          exists y pr,
            gen_cost disc_weights gen_weights = Ok y
            /\ prob_real_true disc_weights = Ok pr
            /\ d = - y - pr).
Proof.
  intros gw dw. split.
  - intros y. unfold gen_cost.
    destruct (prob_fake_true gw dw) as [pf|e] eqn:Hf; cbn [rbind];
      [|discriminate].
    intros [= <-]. pose proof (prob_fake_true_range _ _ Hf). lra.
  - intros d. unfold disc_cost, gen_cost.
    destruct (prob_fake_true gw dw) as [pf|e]; cbn [rbind]; [|discriminate].
    destruct (prob_real_true dw) as [pr|e]; cbn [rbind]; [|discriminate].
    intros [= <-]. exists (- pf), pr. repeat split. ring.
Qed.

Lemma gan_costs_related_witness :
  exists y pr,
    gen_cost (repeat 0 9) (repeat 0 9) = Ok y
    /\ prob_real_true (repeat 0 9) = Ok pr
    /\ result_value (disc_cost (repeat 0 9) (repeat 0 9)) = - y - pr.
Proof.
  destruct (gan_values (repeat 0 9) (repeat 0 9) eq_refl eq_refl)
    as (xr & xf & _ & _ & _ & _ & _ & _ & Hd).
  rewrite Hd. cbn [result_value].
  exact (proj2 (gan_costs_related (repeat 0 9) (repeat 0 9)) _ Hd).
Defined.

(** X12.  For weight vectors of nine entries, [disc_cost] does not depend on the
    discriminator weights 0, 2, 4 and 8, and [gen_cost] does not depend on
    the generator weights 6, 7 and 8. *)
Theorem gan_costs_dead_weights :
  forall (gen_weights disc_weights : list R) (x : R),
    length gen_weights = 9%nat ->
    length disc_weights = 9%nat ->
    (disc_cost gen_weights (set_nth 0 x disc_weights)
       = disc_cost gen_weights disc_weights
     /\ disc_cost gen_weights (set_nth 2 x disc_weights)
        = disc_cost gen_weights disc_weights
     /\ disc_cost gen_weights (set_nth 4 x disc_weights)
        = disc_cost gen_weights disc_weights
     /\ disc_cost gen_weights (set_nth 8 x disc_weights)
        = disc_cost gen_weights disc_weights)
    /\ (gen_cost disc_weights (set_nth 6 x gen_weights)
          = gen_cost disc_weights gen_weights
        /\ gen_cost disc_weights (set_nth 7 x gen_weights)
           = gen_cost disc_weights gen_weights
        /\ gen_cost disc_weights (set_nth 8 x gen_weights)
           = gen_cost disc_weights gen_weights).
Proof.
  intros gw dw x Hg Hd.
  destruct (length_nine _ Hg)
    as (g0 & g1 & g2 & g3 & g4 & g5 & g6 & g7 & g8 & ->).
  destruct (length_nine _ Hd)
    as (w0 & w1 & w2 & w3 & w4 & w5 & w6 & w7 & w8 & ->).
  unfold disc_cost, gen_cost, prob_fake_true, prob_real_true.
  cbn [set_nth app].
  rewrite !gen_disc_reduced, !real_disc_reduced. repeat split; reflexivity.
Qed.

Lemma gan_costs_dead_weights_witness :
  disc_cost (repeat 0 9) (set_nth 0 1 (repeat 0 9))
  = disc_cost (repeat 0 9) (repeat 0 9).
Proof.
  exact (proj1 (proj1 (@gan_costs_dead_weights
                         (repeat 0 9) (repeat 0 9) 1 eq_refl eq_refl))).
Defined.

(** ** The gradient of the circuit, cell 13 *)

(** X1.  At every (theta1, theta2) the gradient of [circuit] in both inputs is
    (- sin(theta1), 0), and - sin(theta1) is the partial derivative of the
    circuit's value in theta1. *)
Theorem circuit_gradient_closed_form :
  forall a b : R,
    gradient exact circuit [a; b] [theta1; theta2]
      = Ok [(theta1, - sin a); (theta2, 0)]
    /\ partial_at (evaluate exact circuit) [a; b] theta1 (- sin a).
Proof.
  intros a b. split.
  - rewrite circuit_gradient. reflexivity.
  - unfold partial_at, theta1. cbn [nth set_nth].
    apply derivable_pt_lim_ext with (f := cos).
    + intros t. rewrite circuit_evaluate. reflexivity.
    + apply derivable_pt_lim_cos.
Qed.
